(** * FinSafeBot: the risk heuristic engine and the explanation arbiter

    A shallow embedding of [main.py]: the normaliser ([_normalize]), the four
    signal detectors and their aggregation ([looks_suspicious]), the keyword
    loader ([load_keywords]) and the remote-explanation arbiter
    ([ai_explain_safety]) with its cooldown and backoff state.

    Python strings are sequences of Unicode code points; they are modelled as
    lists of code points ([N]).  The tables of the Unicode character database
    that [str.lower], [str.strip] and the [re] module consult are not part of
    the program: they are an interface ([UnicodeData]), general results are
    proved for every table that satisfies a few stated laws, and an instance
    covering the blocks the program's constants live in is used to run the
    program on concrete messages. *)

From Stdlib Require Import String Ascii QArith Qminmax Lqa.
From stdpp Require Import base list sorting gmap.

Local Open Scope N_scope.
Local Open Scope list_scope.

(** ** Strings as code points *)

Definition char := N.
Definition str := list char.

(** Source literals are written as UTF-8 text and decoded to code points. *)
Fixpoint utf8_decode (bs : list N) : str :=
  match bs with
  | [] => []
  | b0 :: r =>
    if b0 <? 0x80 then b0 :: utf8_decode r
    else if b0 <? 0xE0 then
      match r with
      | b1 :: r' => ((b0 - 0xC0) * 64 + (b1 - 0x80)) :: utf8_decode r'
      | _ => []
      end
    else if b0 <? 0xF0 then
      match r with
      | b1 :: b2 :: r' =>
        ((b0 - 0xE0) * 4096 + (b1 - 0x80) * 64 + (b2 - 0x80)) :: utf8_decode r'
      | _ => []
      end
    else
      match r with
      | b1 :: b2 :: b3 :: r' =>
        ((b0 - 0xF0) * 262144 + (b1 - 0x80) * 4096 + (b2 - 0x80) * 64 + (b3 - 0x80))
          :: utf8_decode r'
      | _ => []
      end
  end.

Definition u (s : string) : str :=
  utf8_decode (map N_of_ascii (list_ascii_of_string s)).

(** A one-character literal. *)
Definition ch (s : string) : char := List.hd 0 (u s).

Definition SPACE : char := 0x20.
Definition UNDERSCORE : char := 0x5F.
Definition CAPITAL_SIGMA : char := 0x3A3.
Definition SMALL_SIGMA : char := 0x3C3.
Definition FINAL_SIGMA : char := 0x3C2.

Definition str_eqb (a b : str) : bool := bool_decide (a = b).

(** [needle in haystack] *)
Fixpoint is_prefix (p s : str) : bool :=
  match p, s with
  | [], _ => true
  | _ :: _, [] => false
  | x :: p', y :: s' => (x =? y) && is_prefix p' s'
  end.

Fixpoint contains (s needle : str) : bool :=
  is_prefix needle s ||
  match s with
  | [] => false
  | _ :: s' => contains s' needle
  end.

(** [sep.join(parts)] *)
Fixpoint join (sep : str) (parts : list str) : str :=
  match parts with
  | [] => []
  | [p] => p
  | p :: rest => p ++ sep ++ join sep rest
  end.

(** Python compares strings lexicographically by code point. *)
Fixpoint str_leb (a b : str) : bool :=
  match a, b with
  | [], _ => true
  | _ :: _, [] => false
  | x :: a', y :: b' =>
    if x <? y then true else if x =? y then str_leb a' b' else false
  end.

Definition str_le (a b : str) : Prop := str_leb a b = true.

(** The table of [_normalize]: Latin letters and the Cyrillic letters they
    are folded into. *)
Definition map_l2c : list (char * char) := Eval vm_compute in
  [(ch "a", ch "а"); (ch "e", ch "е"); (ch "o", ch "о"); (ch "p", ch "р");
   (ch "c", ch "с"); (ch "x", ch "х"); (ch "y", ch "у"); (ch "k", ch "к");
   (ch "m", ch "м"); (ch "h", ch "н"); (ch "b", ch "в"); (ch "t", ch "т")].

(** ** The Unicode character database, as the interpreter consults it *)

Class UnicodeData := {
  (** full lower-case mapping of one code point ([_PyUnicode_ToLowerFull]) *)
  to_lower_full : char -> str;
  (** [_PyUnicode_IsCased] and [_PyUnicode_IsCaseIgnorable], for final sigma *)
  is_cased : char -> bool;
  is_case_ignorable : char -> bool;
  (** [str.isalnum] of one code point; [\w] is this or the underscore *)
  isalnum : char -> bool;
  (** [str.isspace] of one code point; also [\s] and what [strip] removes *)
  isspace : char -> bool;
  (** decimal digit value ([Py_UNICODE_TODECIMAL]); [\d] is "has a value" *)
  todecimal : char -> option N
}.

(** The facts about the tables that the general results rest on. *)
Class UnicodeLaws (U : UnicodeData) : Prop := {
  lower_stable : forall c d,
    In d (to_lower_full c) -> to_lower_full d = [d] /\ d <> CAPITAL_SIGMA;
  sigma_stable :
    to_lower_full SMALL_SIGMA = [SMALL_SIGMA] /\
    to_lower_full FINAL_SIGMA = [FINAL_SIGMA];
  space_isspace : isspace SPACE = true;
  space_lower : to_lower_full SPACE = [SPACE];
  alnum_not_space : forall c, isalnum c = true -> isspace c = false;
  folded_letters : forall k v, In (k, v) map_l2c ->
    isalnum k = true /\ isalnum v = true /\ to_lower_full v = [v]
}.

Section Text.
Context {U : UnicodeData}.

Definition is_word (c : char) : bool := isalnum c || (c =? UNDERSCORE).
Definition is_digit (c : char) : bool :=
  match todecimal c with Some _ => true | None => false end.

(** *** [str.lower] *)

(** Skip case-ignorable characters and test the first other one. *)
Fixpoint cased_after_ignorable (s : str) : option bool :=
  match s with
  | [] => None
  | c :: s' => if is_case_ignorable c then cased_after_ignorable s' else Some (is_cased c)
  end.

(** [handle_capital_sigma]: [before] is the text to the left, nearest
    character first; [after] the text to the right. *)
Definition handle_capital_sigma (before after : str) : char :=
  let final_sigma :=
    match cased_after_ignorable before with
    | Some true =>
      match cased_after_ignorable after with
      | None => true
      | Some cased => negb cased
      end
    | _ => false
    end in
  if final_sigma then FINAL_SIGMA else SMALL_SIGMA.

Fixpoint lower_from (before : str) (s : str) : str :=
  match s with
  | [] => []
  | c :: rest =>
    (if c =? CAPITAL_SIGMA then [handle_capital_sigma before rest]
     else to_lower_full c) ++ lower_from (c :: before) rest
  end.

Definition lower (s : str) : str := lower_from [] s.

(** *** [str.strip] with no argument *)

Fixpoint lstrip (s : str) : str :=
  match s with
  | [] => []
  | c :: s' => if isspace c then lstrip s' else s
  end.

Fixpoint rstrip (s : str) : str :=
  match s with
  | [] => []
  | c :: s' =>
    match rstrip s' with
    | [] => if isspace c then [] else [c]
    | r => c :: r
    end
  end.

Definition strip (s : str) : str := rstrip (lstrip s).

(** *** [re.sub(r"[class]+", repl, s)]: every maximal run of characters of the
    class is replaced by [repl]. *)
Fixpoint sub_runs_from (p : char -> bool) (repl : str) (in_run : bool) (s : str) : str :=
  match s with
  | [] => []
  | c :: s' =>
    if p c then (if in_run then [] else repl) ++ sub_runs_from p repl true s'
    else c :: sub_runs_from p repl false s'
  end.

Definition sub_runs (p : char -> bool) (repl : str) (s : str) : str :=
  sub_runs_from p repl false s.

(** *** [str.translate] with a table from [str.maketrans] *)
Fixpoint table_get (tbl : list (char * char)) (c : char) : option char :=
  match tbl with
  | [] => None
  | (k, v) :: tbl' => if c =? k then Some v else table_get tbl' c
  end.

Definition translate_char (tbl : list (char * char)) (c : char) : char :=
  match table_get tbl c with Some v => v | None => c end.

Definition translate (tbl : list (char * char)) (s : str) : str :=
  map (translate_char tbl) s.

(** ** The normaliser *)

(** [[^\w\s]] *)
Definition not_word_nor_space (c : char) : bool := negb (is_word c || isspace c).

(** The steps of [_normalize] before the fold of Latin letters. *)
Definition unfolded (text : str) : str :=
  let t := lower text in
  let t := sub_runs not_word_nor_space [SPACE] t in
  strip (sub_runs isspace [SPACE] t).

Definition _normalize (text : str) : str :=
  let t := unfolded text in
  translate map_l2c t.

End Text.

(** ** Regular expressions, as [re.search] uses them

    Only the truth value of [re.search] is used by the detectors, so a
    backtracking matcher that says whether some match exists is enough. *)

Inductive regex :=
| RLit (c : char)
| RClass (p : char -> bool)
| RWordB
| REps
| RCat (a b : regex)
| RAlt (a b : regex)
| ROpt (a : regex)
| RStar (a : regex).

(** [a{0,n}] *)
Fixpoint RUpTo (n : nat) (a : regex) : regex :=
  match n with
  | O => REps
  | S n' => ROpt (RCat a (RUpTo n' a))
  end.

(** [a{lo,lo+extra}] *)
Fixpoint RRepeat (lo extra : nat) (a : regex) : regex :=
  match lo with
  | O => RUpTo extra a
  | S lo' => RCat a (RRepeat lo' extra a)
  end.

Definition RPlus (a : regex) : regex := RCat a (RStar a).

(** [re.escape(s)] used as a pattern: the text itself. *)
Fixpoint RStr (s : str) : regex :=
  match s with
  | [] => REps
  | c :: s' => RCat (RLit c) (RStr s')
  end.

Fixpoint RAlts (rs : list regex) : regex :=
  match rs with
  | [] => RClass (fun _ => false)
  | [r] => r
  | r :: rs' => RAlt r (RAlts rs')
  end.

Section Regex.
Context {U : UnicodeData}.

(** [\b]: exactly one of the neighbours is a word character. *)
Definition word_boundary (prev : option char) (s : str) : bool :=
  xorb (match prev with Some c => is_word c | None => false end)
       (match s with c :: _ => is_word c | [] => false end).

(** [rmatch r prev s k]: [r] matches a prefix of [s] (with [prev] the
    character before it) and [k] accepts what follows. *)
Fixpoint rmatch (r : regex) (prev : option char) (s : str)
    (k : option char -> str -> bool) {struct r} : bool :=
  match r with
  | RLit c =>
    match s with
    | x :: s' => (x =? c) && k (Some x) s'
    | [] => false
    end
  | RClass p =>
    match s with
    | x :: s' => p x && k (Some x) s'
    | [] => false
    end
  | RWordB => word_boundary prev s && k prev s
  | REps => k prev s
  | RCat a b => rmatch a prev s (fun prev' s' => rmatch b prev' s' k)
  | RAlt a b => rmatch a prev s k || rmatch b prev s k
  | ROpt a => rmatch a prev s k || k prev s
  | RStar a =>
    (fix loop (fuel : nat) (prev : option char) (s : str) {struct fuel} : bool :=
       match fuel with
       | O => k prev s
       | S fuel' =>
         rmatch a prev s
           (fun prev' s' =>
              (length s' <? length s)%nat && loop fuel' prev' s')
         || k prev s
       end) (length s) prev s
  end.

Fixpoint search_from (r : regex) (prev : option char) (s : str) : bool :=
  rmatch r prev s (fun _ _ => true) ||
  match s with
  | [] => false
  | c :: s' => search_from r (Some c) s'
  end.

(** [bool(re.search(r, s))] *)
Definition re_search (r : regex) (s : str) : bool := search_from r None s.

(** [rf"\b{re.escape(w)}\b"] *)
Definition whole_word (w : str) : regex := RCat RWordB (RCat (RStr w) RWordB).

End Regex.

(** ** The detectors and their aggregation *)

Definition link_markers : list str := Eval vm_compute in
  map u ["http://"; "https://"; "t.me/"; "bit.ly"; "tinyurl"; "wa.me/"; "vk.cc";
         "goo.gl"; "lnkd.in"; "link"; "ссылка"; "перейди"]%string.

Definition actions : list str := Eval vm_compute in
  map u ["click"; "кликни"; "перейди"; "введи"; "подтверди"; "переведи"; "оплати";
         "follow"; "open"; "confirm"]%string.

Definition rewards : list str := Eval vm_compute in
  map u ["выиграл"; "приз"; "подарок"; "лотерея"; "grant"; "грант"; "win"; "prize";
         "reward"; "деньги"; "доход"; "инвестиция"]%string.

Definition currency_tokens : list str := Eval vm_compute in
  map u ["₸"; "тенге"; "kzt"; "$"; "usd"; "eur"; "€"; "руб"; "₽"]%string.

Definition NBSP : char := 0xA0.

Definition reason_keywords_prefix : str := Eval vm_compute in u "found keywords: ".
Definition reason_link : str := Eval vm_compute in u "contains link/shortener".
Definition reason_money : str := Eval vm_compute in u "mentions money amount + currency".
Definition reason_action_reward : str := Eval vm_compute in u "action + reward pattern".

Section Detectors.
Context {U : UnicodeData}.

(** [\b\d{1,3}(?:[\s.,\u00A0]\d{3})*(?:[.,]\d+)?\s?(?:₸|тенге|kzt|\$|usd|eur|€|руб|₽)\b] *)
Definition money_regex : regex :=
  let d := RClass is_digit in
  let group_sep :=
    RClass (fun c => isspace c || (c =? ch ".") || (c =? ch ",") || (c =? NBSP)) in
  let decimal_sep := RClass (fun c => (c =? ch ".") || (c =? ch ",")) in
  RCat RWordB
    (RCat (RRepeat 1 2 d)
      (RCat (RStar (RCat group_sep (RRepeat 3 0 d)))
        (RCat (ROpt (RCat decimal_sep (RPlus d)))
          (RCat (ROpt (RClass isspace))
            (RCat (RAlts (map RStr currency_tokens)) RWordB))))).

Definition keyword_hits (KEYWORDS : list str) (t : str) : list str :=
  List.filter (fun kw => negb (str_eqb kw []) && re_search (whole_word kw) t) KEYWORDS.

Definition has_link_marker (t : str) : bool :=
  existsb (fun m => contains t m) link_markers.

Definition has_money (t : str) : bool := re_search money_regex t.

Definition has_action_reward (t : str) : bool :=
  existsb (fun a => re_search (whole_word a) t) actions &&
  existsb (fun r => re_search (whole_word r) t) rewards.

Definition reason_keywords (hits : list str) : str :=
  reason_keywords_prefix ++ join (u ", ") (take 5 hits).

Definition looks_suspicious (KEYWORDS : list str) (text : str) : bool * list str :=
  let t := _normalize text in
  let reasons : list str := [] in
  let hits := keyword_hits KEYWORDS t in
  let reasons := match hits with [] => reasons | _ => reasons ++ [reason_keywords hits] end in
  let reasons := if has_link_marker t then reasons ++ [reason_link] else reasons in
  let reasons := if has_money t then reasons ++ [reason_money] else reasons in
  let reasons := if has_action_reward t then reasons ++ [reason_action_reward] else reasons in
  ((0 <? length reasons)%nat, reasons).

End Detectors.

(** ** The interpreter's tables on the blocks the program uses

    Exact for Basic Latin and Latin-1 (U+0000 to U+00FF), the Cyrillic
    alphabet (U+0400 to U+045F) and U+2000 to U+20CF (spaces, punctuation,
    superscripts, currency signs), for the three sigmas and for white space
    everywhere; other code points are taken as caseless symbols.  All literals of the program and all
    messages evaluated below lie in these blocks. *)

Definition in_range (lo hi c : N) : bool := (lo <=? c) && (c <=? hi).

Definition in_ranges (rs : list (N * N)) (c : N) : bool :=
  existsb (fun r => in_range (fst r) (snd r) c) rs.

Definition upper_plus_32 : list (N * N) :=
  [(0x41, 0x5A); (0xC0, 0xD6); (0xD8, 0xDE); (0x3A3, 0x3A3); (0x410, 0x42F)].

Definition alnum_ranges : list (N * N) :=
  [(0x30, 0x39); (0x41, 0x5A); (0x61, 0x7A); (0xAA, 0xAA); (0xB2, 0xB3);
   (0xB5, 0xB5); (0xB9, 0xBA); (0xBC, 0xBE); (0xC0, 0xD6); (0xD8, 0xF6);
   (0xF8, 0xFF); (0x3A3, 0x3A3); (0x3C2, 0x3C3); (0x400, 0x45F);
   (0x2070, 0x2071); (0x2074, 0x2079);
   (0x207F, 0x2089); (0x2090, 0x209C)].

Definition space_ranges : list (N * N) :=
  [(0x09, 0x0D); (0x1C, 0x20); (0x85, 0x85); (0xA0, 0xA0); (0x1680, 0x1680);
   (0x2000, 0x200A); (0x2028, 0x2029); (0x202F, 0x202F); (0x205F, 0x205F);
   (0x3000, 0x3000)].

Definition cased_ranges : list (N * N) :=
  [(0x41, 0x5A); (0x61, 0x7A); (0xAA, 0xAA); (0xB5, 0xB5); (0xBA, 0xBA);
   (0xC0, 0xD6); (0xD8, 0xF6); (0xF8, 0xFF); (0x3A3, 0x3A3); (0x3C2, 0x3C3);
   (0x400, 0x45F); (0x2071, 0x2071); (0x207F, 0x207F); (0x2090, 0x209C)].

Definition case_ignorable_ranges : list (N * N) :=
  [(0x27, 0x27); (0x2E, 0x2E); (0x3A, 0x3A); (0x5E, 0x5E); (0x60, 0x60);
   (0xA8, 0xA8); (0xAD, 0xAD); (0xAF, 0xAF); (0xB4, 0xB4); (0xB7, 0xB8);
   (0x200B, 0x200F); (0x2018, 0x2019); (0x2024, 0x2024); (0x2027, 0x2027);
   (0x202A, 0x202E); (0x2060, 0x2064); (0x2066, 0x206F); (0x2071, 0x2071);
   (0x207F, 0x207F); (0x2090, 0x209C)].

#[export] Instance interpreter_tables : UnicodeData := {|
  to_lower_full c :=
    if in_ranges upper_plus_32 c then [c + 32]
    else if in_range 0x400 0x40F c then [c + 80]
    else [c];
  is_cased := in_ranges cased_ranges;
  is_case_ignorable := in_ranges case_ignorable_ranges;
  isalnum := in_ranges alnum_ranges;
  isspace := in_ranges space_ranges;
  todecimal c := if in_range 0x30 0x39 c then Some (c - 0x30) else None
|}.

(** ** Results of operations that may raise *)

Inductive outcome (A : Type) : Type :=
| Returns (a : A)
| Raises (msg : str).
Arguments Returns {A} a.
Arguments Raises {A} msg.

Definition bind {A B} (m : outcome A) (f : A -> outcome B) : outcome B :=
  match m with
  | Returns a => f a
  | Raises msg => Raises msg
  end.

Notation "x <- m ;; k" := (bind m (fun x => k))
  (at level 60, m at next level, right associativity).

(** ** Loading the keyword list *)

#[local] Set Warnings "-register-all".

Inductive json :=
| JNull
| JBool (b : bool)
| JNumber (q : Q)
| JString (s : str)
| JArray (items : list json)
| JObject (members : list (str * json)).

(** [d.get(key, default)]; a key written twice in the document keeps its
    last value. *)
Fixpoint dict_get (members : list (str * json)) (key : str) (default : json) : json :=
  match members with
  | [] => default
  | (k, v) :: rest =>
    if existsb (fun m => str_eqb (fst m) key) rest then dict_get rest key default
    else if str_eqb k key then v else default
  end.

Definition json_get (data : json) (key : str) (default : json) : outcome json :=
  match data with
  | JObject members => Returns (dict_get members key default)
  | _ => Raises (u "AttributeError")
  end.

(** [for k in kws] *)
Definition json_iter (kws : json) : outcome (list json) :=
  match kws with
  | JArray items => Returns items
  | JString s => Returns (map (fun c => JString [c]) s)
  | JObject members => Returns (map (fun m => JString (fst m)) members)
  | _ => Raises (u "TypeError")
  end.

#[export] Instance str_le_dec : RelDecision str_le :=
  fun a b => decide (str_leb a b = true).

(** [sorted(set(xs))]: the distinct elements in ascending order. *)
Definition sorted_set (xs : list str) : list str :=
  merge_sort str_le (remove_dups xs).

Definition fallback_keywords : list str := Eval vm_compute in
  map u ["transfer"; "urgent"; "money"; "prize"; "win"; "grant"; "link"; "click";
         "переведи"; "срочно"; "подарок"; "грант"; "ссылка"; "пароль"; "банк";
         "лотерея"; "выиграл"; "данные"]%string.

Section Keywords.
Context {U : UnicodeData}.

(** [str(k).lower() for k in kws if isinstance(k, str)] *)
Fixpoint lowered_strings (items : list json) : list str :=
  match items with
  | [] => []
  | JString k :: rest => lower k :: lowered_strings rest
  | _ :: rest => lowered_strings rest
  end.

(** [file] is what opening and parsing the keyword file gives: the parsed
    document, or the exception of a missing or malformed file. *)
Definition load_keywords (file : outcome json) : list str :=
  let attempt :=
    data <- file ;;
    kws <- json_get data (u "keywords") (JArray []) ;;
    items <- json_iter kws ;;
    Returns (sorted_set (lowered_strings items)) in
  match attempt with
  | Returns keywords => keywords
  | Raises _ => fallback_keywords
  end.

End Keywords.

(** ** The explanation arbiter *)

Local Open Scope Q_scope.

Record AiState := {
  _ai_cooldown_until : Q;
  _ai_backoff_sec : Q
}.

Definition _ai_backoff_max : Q := 3600.

Definition initial_state : AiState :=
  {| _ai_cooldown_until := 0; _ai_backoff_sec := 60 |}.

(** The shared state and the prompts sent to the remote generator so far. *)
Record World := {
  ai : AiState;
  sent : list str
}.

(** One call: its arguments, the two readings of the clock (at the cooldown
    test and in the quota handler) and what the remote generator does with
    the prompt if it is called: the [text] attribute of its response, or the
    message of the exception it raises. *)
Record Request := {
  text : str;
  lang : str;
  now : Q;
  now_failed : Q;
  generate_content : str -> outcome (option str)
}.

Definition Qlt_bool (x y : Q) : bool := negb (Qle_bool y x).

Definition tip_ru : str := Eval vm_compute in
  u "Проверьте отправителя по официальному номеру, не переходите по ссылкам и не вводите данные. Если просят деньги/код — это почти наверняка мошенники.".

Definition tip_en : str := Eval vm_compute in
  u "Verify the sender via official phone, don’t open links or enter credentials. If they ask for money/codes — it’s almost certainly a scam.".

Definition _local_fallback_tip (lang : str) : str :=
  if str_eqb lang (u "ru") then tip_ru else tip_en.

Definition prompt_en : str := Eval vm_compute in
  u "You are a concise financial safety assistant. In 1–2 sentences, explain why the user's message could be a scam and what to do next. Keep it actionable.".

Definition prompt_ru : str := Eval vm_compute in
  u "Ты краткий помощник по финансовой безопасности. За 1–2 предложения объясни, почему сообщение может быть мошенническим, и что делать дальше. Кратко и по делу.".

Definition NEWLINE : char := 0x0A%N.

Definition user_message_header : str := Eval vm_compute in
  [NEWLINE; NEWLINE] ++ u "User message:" ++ [NEWLINE].

(** The text handed to [generate_content]. *)
Definition full_prompt (text lang : str) : str :=
  let prompt := if str_eqb lang (u "en") then prompt_en else prompt_ru in
  let payload := take 1500 text in
  prompt ++ user_message_header ++ payload.

Section Arbiter.
Context {U : UnicodeData}.

(** [re.search(r"retry[_ ]delay[^\d]*(\d+)", msg, flags=re.I)]: the digits
    of group 1.  The leftmost occurrence of the words decides: the longest
    run of digits that follows it after non-digits, if any digit follows. *)
Definition eq_ignore_case (pattern_char c : char) : bool :=
  (c =? pattern_char)%N || (c =? pattern_char - 32)%N.

(** [retry[_ ]delay] under [re.I], one test per character *)
Definition retry_delay_words : list (char -> bool) :=
  map eq_ignore_case (u "retry")
  ++ [fun c => (c =? ch "_")%N || (c =? SPACE)%N]
  ++ map eq_ignore_case (u "delay").

(** The text after the words when [s] starts with them. *)
Fixpoint after_classes (ps : list (char -> bool)) (s : str) : option str :=
  match ps with
  | [] => Some s
  | p :: ps' =>
    match s with
    | c :: s' => if p c then after_classes ps' s' else None
    | [] => None
    end
  end.

Fixpoint drop_non_digits (s : str) : str :=
  match s with
  | [] => []
  | c :: s' => if is_digit c then s else drop_non_digits s'
  end.

Fixpoint leading_digits (s : str) : list N :=
  match s with
  | [] => []
  | c :: s' =>
    match todecimal c with
    | Some v => v :: leading_digits s'
    | None => []
    end
  end.

Fixpoint retry_delay_digits (msg : str) : option (list N) :=
  match after_classes retry_delay_words msg with
  | Some rest =>
    match leading_digits (drop_non_digits rest) with
    | [] => None
    | ds => Some ds
    end
  | None =>
    match msg with
    | [] => None
    | _ :: rest => retry_delay_digits rest
    end
  end.

(** [float(m.group(1))], as an exact number *)
Definition float_of_digits (ds : list N) : Q :=
  inject_Z (Z.of_N (fold_left (fun acc d => (acc * 10 + d)%N) ds 0%N)).

Definition is_quota_error (msg : str) : bool :=
  contains msg (u "429") || contains (lower msg) (u "quota").

(** The inner [_call]: the stripped text of the response. *)
Definition _call (req : Request) : outcome str :=
  resp_text <- generate_content req (full_prompt (text req) (lang req)) ;;
  Returns (strip (match resp_text with Some t => t | None => [] end)).

(** [available] says whether [_gemini_model] was set at start-up. *)
Definition ai_explain_safety (available : bool) (req : Request) (w : World)
    : outcome (option str) * World :=
  if negb available || Qlt_bool (now req) (_ai_cooldown_until (ai w)) then
    (Returns (Some (_local_fallback_tip (lang req))), w)
  else
    let w := {| ai := ai w; sent := sent w ++ [full_prompt (text req) (lang req)] |} in
    match _call req with
    | Returns out =>
      (Returns (Some (match out with
                      | [] => _local_fallback_tip (lang req)
                      | _ => take 500 out
                      end)), w)
    | Raises msg =>
      let w :=
        if is_quota_error msg then
          let retry :=
            match retry_delay_digits msg with
            | Some ds => float_of_digits ds
            | None => _ai_backoff_sec (ai w)
            end in
          {| ai := {| _ai_cooldown_until := now_failed req + Qmin retry _ai_backoff_max;
                      _ai_backoff_sec := Qmin (_ai_backoff_sec (ai w) * 2) _ai_backoff_max |};
             sent := sent w |}
        else w in
      (Returns (Some (_local_fallback_tip (lang req))), w)
    end.

(** Calls one after the other on the shared state. *)
Fixpoint serve (available : bool) (reqs : list Request) (w : World)
    : list (outcome (option str)) * World :=
  match reqs with
  | [] => ([], w)
  | req :: rest =>
    let (r, w1) := ai_explain_safety available req w in
    let (rs, w2) := serve available rest w1 in
    (r :: rs, w2)
  end.

End Arbiter.

Local Close Scope Q_scope.

(** ** Language detection and the texts of the replies *)

Definition is_cyrillic (ch : char) : bool := (0x400 <=? ch)%N && (ch <=? 0x4FF)%N.

Fixpoint detect_lang (sample : str) : str :=
  match sample with
  | [] => u "en"
  | ch :: rest => if is_cyrillic ch then u "ru" else detect_lang rest
  end.

Definition tips_ru : str := Eval vm_compute in
  u "💡 *Советы по безопасности:*" ++
  [NEWLINE] ++
  u "• Никогда не передавайте личные данные через неизвестные ссылки." ++
  [NEWLINE] ++
  u "• Проверяйте отправителя, звоните в банк по официальному номеру." ++
  [NEWLINE] ++
  u "• Не переводите деньги по просьбе «родственника» без проверки." ++
  [NEWLINE] ++
  u "• Не переходите по укороченным ссылкам из незнакомых источников.".

Definition tips_en : str := Eval vm_compute in
  u "💡 *Safety tips:*" ++
  [NEWLINE] ++
  u "• Never share personal data via unknown links." ++
  [NEWLINE] ++
  u "• Verify the sender; call your bank through the official number." ++
  [NEWLINE] ++
  u "• Don’t send money to “relatives” without verification." ++
  [NEWLINE] ++
  u "• Avoid shortened links from unknown sources.".

Definition start_ru : str := Eval vm_compute in
  u "👋 Привет! Я *FinSafeBot* — ассистент по финансовой безопасности." ++
  [NEWLINE] ++
  u "Отправь мне любое сообщение, и я подскажу, не похоже ли оно на мошенничество.".

Definition start_en : str := Eval vm_compute in
  u "👋 Hello! I’m *FinSafeBot* — your financial safety assistant." ++
  [NEWLINE] ++
  u "Send me any message and I’ll help you check if it might be a scam.".

Definition report_ru : str := Eval vm_compute in
  u "✅ Заявка зафиксирована локально (демо). Обратитесь в ваш банк/КЦ при необходимости.".

Definition report_en : str := Eval vm_compute in
  u "✅ Report noted locally (demo). Contact your bank/call center if needed.".

Definition clean_ru : str := Eval vm_compute in
  u "✅ Признаков мошенничества не обнаружено.".

Definition clean_en : str := Eval vm_compute in
  u "✅ No suspicious activity detected.".

Definition warning_ru : str := Eval vm_compute in
  u "⚠️ Сообщение выглядит *подозрительно*." ++
  [NEWLINE] ++
  u "Не переходите по ссылкам и не отправляйте деньги. Проверьте источник!" ++
  [NEWLINE].

Definition warning_en : str := Eval vm_compute in
  u "⚠️ This message looks *suspicious*." ++
  [NEWLINE] ++
  u "Do not click links or send money. Please verify the source!" ++
  [NEWLINE].

Definition ai_label : str := Eval vm_compute in
  [NEWLINE] ++
  u "🤖 AI: ".

Definition ai_label_help : str := Eval vm_compute in
  [NEWLINE] ++
  [NEWLINE] ++
  u "🤖 AI: ".

Definition reason_label_ru : str := Eval vm_compute in
  u "Причина: ".

Definition reason_label_en : str := Eval vm_compute in
  u "Reason: ".

Definition button_help_ru : str := Eval vm_compute in
  u "📘 Советы".

Definition button_report_ru : str := Eval vm_compute in
  u "🚩 Пожаловаться".

Definition button_help_en : str := Eval vm_compute in
  u "📘 Tips".

Definition button_report_en : str := Eval vm_compute in
  u "🚩 Report".

Definition tips_text (lang : str) : str :=
  if str_eqb lang (u "ru") then tips_ru else tips_en.

(** An inline keyboard: the buttons of its single row, each with its label
    and callback data. *)
Definition inline_kb (lang : str) : list (str * str) :=
  if str_eqb lang (u "ru") then
    [(button_help_ru, u "help"); (button_report_ru, u "report")]
  else
    [(button_help_en, u "help"); (button_report_en, u "report")].

(** ** The token of the bot ([config.py], and the same steps in [main.py]) *)

(** [s.strip(chars)] for a set of characters given by a test. *)
Fixpoint lstrip_of (p : char -> bool) (s : str) : str :=
  match s with
  | [] => []
  | c :: s' => if p c then lstrip_of p s' else s
  end.

Fixpoint rstrip_of (p : char -> bool) (s : str) : str :=
  match s with
  | [] => []
  | c :: s' =>
    match rstrip_of p s' with
    | [] => if p c then [] else [c]
    | r => c :: r
    end
  end.

Definition strip_of (p : char -> bool) (s : str) : str := rstrip_of p (lstrip_of p s).

Definition DOUBLE_QUOTE : char := 0x22.
Definition APOSTROPHE : char := 0x27.

Section Config.
Context {U : UnicodeData}.

(** Strip white space, then double quotes, then apostrophes, each at both
    ends. *)
Definition unquote (value : str) : str :=
  strip_of (N.eqb APOSTROPHE) (strip_of (N.eqb DOUBLE_QUOTE) (strip value)).

(** [BOT_TOKEN] is the value of the environment variable, if it is set. *)
Definition get_bot_token (BOT_TOKEN : option str) : outcome str :=
  let token := unquote (default [] BOT_TOKEN) in
  match token with
  | [] => Raises (u "BOT_TOKEN is not set. Please add it to .env")
  | _ => Returns token
  end.

(** ** The choice of the remote model at start-up *)

(** [USE_GEMINI]: on unless the variable, stripped, is [0], [false] or
    [False]; it is on when the variable is not set. *)
Definition use_gemini (USE_GEMINI : option str) : bool :=
  let v := strip (default (u "1") USE_GEMINI) in
  negb (existsb (str_eqb v) [u "0"; u "false"; u "False"]).

(** [a or b]: the first string unless it is empty or missing. *)
Definition str_or (a : option str) (b : str) : str :=
  match a with
  | Some (c :: a') => c :: a'
  | _ => b
  end.

Definition gemini_api_key (GEMINI_API_KEY GOOGLE_API_KEY : option str) : str :=
  strip (str_or GEMINI_API_KEY (str_or GOOGLE_API_KEY [])).

Definition WANTED (GEMINI_MODEL : option str) : list str :=
  [str_or (Some (strip (str_or GEMINI_MODEL []))) (u "gemini-1.5-flash-8b");
   u "gemini-1.5-flash-8b"; u "gemini-1.5-flash"; u "gemini-1.5-pro"; u "gemini-pro"].

Definition _normalize_wanted_name (name : str) : list str :=
  let name := strip name in
  match name with
  | [] => []
  | _ => [name; u "models/" ++ name]
  end.

End Config.

(** [x.endswith(suffix)] *)
Definition endswith (x suffix : str) : bool := is_prefix (rev suffix) (rev x).

(** [x.endswith(candidate) or x == candidate] *)
Definition fits (candidate x : str) : bool := endswith x candidate || str_eqb x candidate.

(** A value counts as true when it is a string that is not empty. *)
Definition truthy (chosen : option str) : bool :=
  match chosen with
  | Some (_ :: _) => true
  | _ => false
  end.

(** The inner loop: the first candidate that some available model fits
    gives the first such model. *)
Fixpoint first_fit (candidates available : list str) : option str :=
  match candidates with
  | [] => None
  | candidate :: rest =>
    match List.find (fits candidate) available with
    | Some x => Some x
    | None => first_fit rest available
    end
  end.

(** What the start-up code lists for one model: its name and the generation
    methods it supports, each possibly absent. *)
Record ModelInfo := {
  name : option str;
  supported_generation_methods : option (list str)
}.

(** The names of the models that support [generateContent], among the models
    listed before the listing ended or failed. *)
Fixpoint available_models (listed : list ModelInfo) : list str :=
  match listed with
  | [] => []
  | m :: rest =>
    if existsb (str_eqb (u "generateContent")) (default [] (supported_generation_methods m))
    then default [] (name m) :: available_models rest
    else available_models rest
  end.

Section Selection.
Context {U : UnicodeData}.

(** The outer loop over the wanted names, with [chosen] as it stands. *)
Fixpoint select_wanted (wanted available : list str) (chosen : option str) : option str :=
  match wanted with
  | [] => chosen
  | want :: rest =>
    let chosen :=
      match first_fit (_normalize_wanted_name want) available with
      | Some x => Some x
      | None => chosen
      end in
    if truthy chosen then chosen else select_wanted rest available chosen
  end.

(** The name of the model that is configured, if any. *)
Definition choose_model (wanted available : list str) : option str :=
  let chosen := select_wanted wanted available None in
  let chosen :=
    match available with
    | first :: _ => if truthy chosen then chosen else Some first
    | [] => chosen
    end in
  if truthy chosen then chosen else None.

(** The start-up decision: [sdk] tells whether the client library could be
    imported; the result is the selected model, and [_gemini_model] is set
    exactly when there is one.  Failures of the library's own calls other
    than the listing are not part of this model. *)
Definition gemini_selected (USE_GEMINI : option str) (sdk : bool)
    (GEMINI_API_KEY GOOGLE_API_KEY GEMINI_MODEL : option str)
    (listed : list ModelInfo) : option str :=
  if use_gemini USE_GEMINI && sdk &&
     negb (str_eqb (gemini_api_key GEMINI_API_KEY GOOGLE_API_KEY) [])
  then choose_model (WANTED GEMINI_MODEL) (available_models listed)
  else None.

End Selection.

(** ** The handlers *)

Record User := {
  id : Z;
  language_code : option str
}.

Record Message := {
  message_text : option str;
  from_user : User
}.

Record CallbackQuery := {
  call_data : str;
  call_message : Message;
  call_from_user : User
}.

(** What a handler sends. *)
Inductive Sent :=
| MessageAnswer (body : str) (parse_mode : option str) (reply_markup : option (list (str * str)))
| CallAnswer (body : option str).

(** The memory of last messages with the world of the arbiter. *)
Record Bot := {
  LAST_MSGS : gmap Z str;
  world : World
}.

(** What the arbiter would meet if a handler called it now: the two readings
    of the clock and the behaviour of the remote generator. *)
Record Remote := {
  clock : Q;
  clock_failed : Q;
  respond : str -> outcome (option str)
}.

Definition request (env : Remote) (txt lang : str) : Request :=
  {| text := txt; lang := lang; now := clock env; now_failed := clock_failed env;
     generate_content := respond env |}.

Section Handlers.
Context {U : UnicodeData}.
Variable KEYWORDS : list str.
Variable available : bool.

Definition cmd_start (message : Message) : list Sent :=
  let lang :=
    if str_eqb (detect_lang (default [] (language_code (from_user message)))) (u "ru")
    then u "ru" else u "en" in
  let text := if str_eqb lang (u "ru") then start_ru else start_en in
  [MessageAnswer text (Some (u "Markdown")) (Some (inline_kb lang))].

Definition cmd_help (message : Message) : list Sent :=
  let lang :=
    detect_lang (default [] (message_text message)
                 ++ default [] (language_code (from_user message))) in
  [MessageAnswer (tips_text lang) (Some (u "Markdown")) None].

(** [if tip: text += label + tip] *)
Definition with_tip (text label : str) (tip : option str) : str :=
  match tip with
  | Some (c :: tip') => text ++ label ++ c :: tip'
  | _ => text
  end.

Definition callbacks (env : Remote) (call : CallbackQuery) (bot : Bot)
    : outcome (list Sent) * Bot :=
  let lang :=
    detect_lang (default [] (message_text (call_message call))
                 ++ default [] (language_code (call_from_user call))) in
  let uid := id (call_from_user call) in
  if str_eqb (call_data call) (u "help") then
    let text := tips_text lang in
    match LAST_MSGS bot !! uid with
    | Some (c :: last') =>
      let last := c :: last' in
      match ai_explain_safety available (request env last lang) (world bot) with
      | (Returns tip, w) =>
        (Returns [CallAnswer None;
                  MessageAnswer (with_tip text ai_label_help tip) (Some (u "Markdown")) None],
         {| LAST_MSGS := LAST_MSGS bot; world := w |})
      | (Raises e, w) => (Raises e, {| LAST_MSGS := LAST_MSGS bot; world := w |})
      end
    | _ =>
      (Returns [CallAnswer None; MessageAnswer text (Some (u "Markdown")) None], bot)
    end
  else
    let text := if str_eqb lang (u "ru") then report_ru else report_en in
    (Returns [CallAnswer (Some (u "OK")); MessageAnswer text None None], bot).

Definition analyze (env : Remote) (message : Message) (bot : Bot)
    : outcome (list Sent) * Bot :=
  let txt := default [] (message_text message) in
  let lang := detect_lang txt in
  let bot := {| LAST_MSGS := <[id (from_user message) := txt]> (LAST_MSGS bot);
                world := world bot |} in
  let '(suspicious, reasons) := looks_suspicious KEYWORDS txt in
  let answer resp :=
    [MessageAnswer resp (Some (u "Markdown")) (Some (inline_kb lang))] in
  if str_eqb lang (u "ru") then
    if suspicious then
      let resp := warning_ru ++
        match reasons with
        | [] => []
        | _ => reason_label_ru ++ join (u "; ") reasons
        end in
      match ai_explain_safety available (request env txt lang) (world bot) with
      | (Returns tip, w) =>
        (Returns (answer (with_tip resp ai_label tip)),
         {| LAST_MSGS := LAST_MSGS bot; world := w |})
      | (Raises e, w) => (Raises e, {| LAST_MSGS := LAST_MSGS bot; world := w |})
      end
    else (Returns (answer clean_ru), bot)
  else
    if suspicious then
      let resp := warning_en ++
        match reasons with
        | [] => []
        | _ => reason_label_en ++ join (u "; ") reasons
        end in
      match ai_explain_safety available (request env txt lang) (world bot) with
      | (Returns tip, w) =>
        (Returns (answer (with_tip resp ai_label tip)),
         {| LAST_MSGS := LAST_MSGS bot; world := w |})
      | (Raises e, w) => (Raises e, {| LAST_MSGS := LAST_MSGS bot; world := w |})
      end
    else (Returns (answer clean_en), bot).

End Handlers.

(** ** Notions used to state the results *)

Section Notions.
Context {U : UnicodeData}.

(** A character that [lower] leaves alone. *)
Definition lower_fixed (c : char) : Prop :=
  to_lower_full c = [c] /\ c <> CAPITAL_SIGMA.

(** White space occurs only as single [SPACE]s. *)
Fixpoint single_spaced (after_space : bool) (s : str) : bool :=
  match s with
  | [] => true
  | c :: s' =>
    if isspace c then (c =? SPACE) && negb after_space && single_spaced true s'
    else single_spaced false s'
  end.

(** No white space at the start. *)
Definition starts_clean (s : str) : Prop :=
  match s with
  | [] => True
  | c :: _ => isspace c = false
  end.

(** The reasons of the detectors that fire on the normalised text [t], in
    the order keyword, link, currency, action and reward. *)
Definition reasons_in_order (KEYWORDS : list str) (t : str) : list str :=
  (match keyword_hits KEYWORDS t with [] => [] | hits => [reason_keywords hits] end)
  ++ (if has_link_marker t then [reason_link] else [])
  ++ (if has_money t then [reason_money] else [])
  ++ (if has_action_reward t then [reason_action_reward] else []).

(** A marker made of lower-case letters that are not folded. *)
Definition plain_word (m : str) : Prop :=
  m <> [] /\
  Forall (fun c => isalnum c = true /\ lower_fixed c /\ table_get map_l2c c = None) m.

End Notions.

(** The word holds one of the letters that [_normalize] replaces. *)
Definition has_folded_letter (m : str) : bool :=
  existsb (fun c => match table_get map_l2c c with Some _ => true | None => false end) m.

(** A request whose remote call fails with the given message. *)
Definition quota_request (message : string) (t0 t1 : Q) : Request :=
  {| text := u "hello"; lang := u "en"; now := t0; now_failed := t1;
     generate_content := fun _ => Raises (u message) |}.

Definition fresh_world : World := {| ai := initial_state; sent := [] |}.

(** One character class after the other. *)
Fixpoint RClasses (ps : list (char -> bool)) : regex :=
  match ps with
  | [] => REps
  | p :: ps' => RCat (RClass p) (RClasses ps')
  end.

Section RetryPattern.
Context {U : UnicodeData}.

(** [retry[_ ]delay[^\d]*(\d+)] under [re.I], without the group. *)
Definition retry_delay_regex : regex :=
  RCat (RClasses retry_delay_words)
    (RCat (RStar (RClass (fun c => negb (is_digit c)))) (RPlus (RClass is_digit))).

Variable a : regex.
Variable k : option char -> str -> bool.

(** The loop of [rmatch] on a starred pattern. *)
Fixpoint star_loop (fuel : nat) (prev : option char) (s : str) {struct fuel} : bool :=
  match fuel with
  | O => k prev s
  | S fuel' =>
    rmatch a prev s
      (fun prev' s' => (length s' <? length s)%nat && star_loop fuel' prev' s')
    || k prev s
  end.

End RetryPattern.

Section MoreNotions.
Context {U : UnicodeData}.

(** The character before a position that follows [s], given the one before [s]. *)
Definition last_or (prev : option char) (s : str) : option char :=
  match last s with
  | Some c => Some c
  | None => prev
  end.

(** A token that starts and ends with a character that is neither white
    space nor a quote. *)
Definition plain_token (token : str) : Prop :=
  token <> [] /\
  forall c, (exists rest, token = c :: rest) \/ (exists start, token = start ++ [c]) ->
    isspace c = false /\ c <> DOUBLE_QUOTE /\ c <> APOSTROPHE.

End MoreNotions.

(** No character of the set given by [p] at either end, and not empty. *)
Definition clean_ends (p : char -> bool) (s : str) : Prop :=
  s <> [] /\
  (forall c rest, s = c :: rest -> p c = false) /\
  (forall a c, s = a ++ [c] -> p c = false).

(** Sample users, messages and surroundings for the handlers. *)
Definition sample_reader : User := {| id := 7; language_code := Some (u "ru") |}.
Definition coffee_message : Message :=
  {| message_text := Some (u "Let's meet for coffee tomorrow"); from_user := sample_reader |}.
Definition scam_message : Message :=
  {| message_text := Some (u "Срочно переведи деньги, ты выиграл приз");
     from_user := sample_reader |}.
Definition start_message : Message :=
  {| message_text := Some (u "/start"); from_user := sample_reader |}.
Definition help_call : CallbackQuery :=
  {| call_data := u "help";
     call_message := {| message_text := Some (u "hi");
                        from_user := {| id := 1; language_code := None |} |};
     call_from_user := sample_reader |}.
Definition silent_remote : Remote :=
  {| clock := 10; clock_failed := 11; respond := fun _ => Returns None |}.
Definition empty_bot : Bot := {| LAST_MSGS := ∅; world := fresh_world |}.
Definition blank_bot : Bot := {| LAST_MSGS := <[7%Z := []]> ∅; world := fresh_world |}.

(** A request whose remote generator answers with padded text. *)
Definition sample_reply : str := Eval vm_compute in u "  Looks like a scam.  ".
Definition answering_request : Request :=
  {| text := u "hello"; lang := u "en"; now := 10; now_failed := 11;
     generate_content := fun _ => Returns (Some sample_reply) |}.

(** Sample start-up surroundings. *)
Definition sample_listing : list ModelInfo :=
  [{| name := Some (u "models/embedding-001");
      supported_generation_methods := Some [u "embedContent"] |};
   {| name := Some (u "models/gemini-1.5-flash");
      supported_generation_methods := Some [u "generateContent"; u "countTokens"] |}].

(** * Properties of the normaliser *)

Section NormalizerFacts.
Context {U : UnicodeData} {L : UnicodeLaws U}.

Lemma lower_from_fixed s : forall before,
  Forall lower_fixed s -> lower_from before s = s.
Proof.
  induction s as [|c s IH]; intros before Hs; [reflexivity|].
  inversion Hs as [|? ? [Hc Hne] Hs']; subst. simpl.
  apply N.eqb_neq in Hne. rewrite Hne, Hc. simpl. f_equal. apply IH, Hs'.
Qed.

Lemma handle_capital_sigma_fixed before after :
  lower_fixed (handle_capital_sigma before after).
Proof.
  destruct sigma_stable as [Hs Hf].
  unfold handle_capital_sigma.
  destruct (match cased_after_ignorable before with
            | Some true => _ | _ => false end);
    split; auto; discriminate.
Qed.

Lemma lower_from_chars s : forall before,
  Forall lower_fixed (lower_from before s).
Proof.
  induction s as [|c s IH]; intros before; simpl; [constructor|].
  apply Forall_app. split; [|apply IH].
  destruct (c =? CAPITAL_SIGMA).
  - repeat constructor; apply handle_capital_sigma_fixed.
  - apply List.Forall_forall. intros d Hd. apply (lower_stable c d Hd).
Qed.

Lemma lower_idempotent s : lower (lower s) = lower s.
Proof. apply lower_from_fixed, lower_from_chars. Qed.

(** Substitution of runs adds nothing but the replacement. *)
Lemma sub_runs_from_chars (P : char -> Prop) p repl s : forall b,
  Forall P repl -> Forall P s -> Forall P (sub_runs_from p repl b s).
Proof.
  induction s as [|c s IH]; intros b Hr Hs; simpl; [constructor|].
  inversion Hs; subst.
  destruct (p c).
  - apply Forall_app. split; [destruct b; [constructor | assumption] | auto].
  - constructor; auto.
Qed.

Lemma sub_runs_from_none p repl s : forall b,
  Forall (fun c => p c = false) s -> sub_runs_from p repl b s = s.
Proof.
  induction s as [|c s IH]; intros b Hs; simpl; [reflexivity|].
  inversion Hs as [|? ? Hc Hs']; subst. rewrite Hc. f_equal. auto.
Qed.

Lemma sub_runs_from_clears p repl s : forall b,
  Forall (fun c => p c = false) repl ->
  Forall (fun c => p c = false) (sub_runs_from p repl b s).
Proof.
  induction s as [|c s IH]; intros b Hr; simpl; [constructor|].
  destruct (p c) eqn:Hc.
  - apply Forall_app. split; [destruct b; [constructor | assumption] | auto].
  - constructor; auto.
Qed.

Lemma lstrip_chars (P : char -> Prop) s : Forall P s -> Forall P (lstrip s).
Proof.
  induction 1 as [|c s Hc Hs IH]; simpl; [constructor|].
  destruct (isspace c); [assumption | constructor; assumption].
Qed.

Lemma rstrip_chars (P : char -> Prop) s : Forall P s -> Forall P (rstrip s).
Proof.
  induction 1 as [|c s Hc Hs IH]; simpl; [constructor|].
  destruct (rstrip s); [destruct (isspace c); repeat constructor; assumption|].
  constructor; assumption.
Qed.

Lemma strip_chars (P : char -> Prop) s : Forall P s -> Forall P (strip s).
Proof. intros. apply rstrip_chars, lstrip_chars. assumption. Qed.

Lemma collapse_single_spaced s : forall b,
  single_spaced b (sub_runs_from isspace [SPACE] b s) = true.
Proof.
  induction s as [|c s IH]; intros b; simpl; [reflexivity|].
  destruct (isspace c) eqn:Hc.
  - destruct b; simpl; [apply IH|].
    rewrite space_isspace. simpl. apply IH.
  - simpl. rewrite Hc. apply IH.
Qed.

Lemma single_spaced_collapse s : forall b,
  single_spaced b s = true -> sub_runs_from isspace [SPACE] b s = s.
Proof.
  induction s as [|c s IH]; intros b H; simpl in *; [reflexivity|].
  destruct (isspace c).
  - apply andb_prop in H as [H H3]. apply andb_prop in H as [H1 H2].
    apply N.eqb_eq in H1. destruct b; [discriminate|]. subst c. simpl.
    f_equal. auto.
  - f_equal. auto.
Qed.

Lemma single_spaced_lstrip s : forall b b',
  single_spaced b s = true -> single_spaced b' (lstrip s) = true.
Proof.
  induction s as [|c s IH]; intros b b' H; simpl in *; [reflexivity|].
  destruct (isspace c) eqn:Hc.
  - apply andb_prop in H as [_ H]. eauto.
  - simpl. rewrite Hc. assumption.
Qed.

Lemma single_spaced_rstrip s : forall b,
  single_spaced b s = true -> single_spaced b (rstrip s) = true.
Proof.
  induction s as [|c s IH]; intros b H; simpl in *; [reflexivity|].
  destruct (isspace c) eqn:Hc.
  - apply andb_prop in H as [H H3]. apply IH in H3.
    destruct (rstrip s) as [|x r]; [reflexivity|].
    simpl in *. rewrite Hc, H. assumption.
  - apply IH in H.
    destruct (rstrip s) as [|x r]; simpl in *; rewrite Hc; [reflexivity | assumption].
Qed.

(** [strip] is idempotent. *)
Lemma lstrip_starts_clean s : starts_clean (lstrip s).
Proof.
  induction s as [|c s IH]; simpl; [exact I|].
  destruct (isspace c) eqn:Hc; [assumption | exact Hc].
Qed.

Lemma starts_clean_lstrip s : starts_clean s -> lstrip s = s.
Proof. destruct s as [|c s]; simpl; [reflexivity|]. intros ->. reflexivity. Qed.

Lemma rstrip_starts_clean s : starts_clean s -> starts_clean (rstrip s).
Proof.
  destruct s as [|c s]; simpl; [tauto|]. intros Hc.
  destruct (rstrip s); [rewrite Hc|]; exact Hc.
Qed.

Lemma rstrip_idempotent s : rstrip (rstrip s) = rstrip s.
Proof.
  induction s as [|c s IH]; simpl; [reflexivity|].
  destruct (rstrip s) as [|x r] eqn:Hr.
  - destruct (isspace c) eqn:Hc; simpl; [reflexivity|]. rewrite Hc. reflexivity.
  - change (rstrip (c :: x :: r)) with
      (match rstrip (x :: r) with
       | [] => if isspace c then [] else [c]
       | r0 => c :: r0
       end).
    rewrite IH. reflexivity.
Qed.

Lemma strip_idempotent s : strip (strip s) = strip s.
Proof.
  unfold strip.
  rewrite (starts_clean_lstrip (rstrip (lstrip s))).
  - apply rstrip_idempotent.
  - apply rstrip_starts_clean, lstrip_starts_clean.
Qed.

(** A character map that keeps the classes commutes with the steps. *)
Section Renaming.
Variable f : char -> char.

Lemma sub_runs_from_map p repl s : forall b,
  (forall c, In c s -> p (f c) = p c) -> map f repl = repl ->
  sub_runs_from p repl b (map f s) = map f (sub_runs_from p repl b s).
Proof.
  induction s as [|c s IH]; intros b Hp Hr; simpl; [reflexivity|].
  rewrite (Hp c) by (left; reflexivity).
  assert (Hs : forall c0, In c0 s -> p (f c0) = p c0) by (intros; apply Hp; right; assumption).
  destruct (p c).
  - rewrite map_app, IH by assumption. destruct b; simpl; [reflexivity|].
    rewrite Hr. reflexivity.
  - simpl. rewrite IH by assumption. reflexivity.
Qed.

Lemma lstrip_map s :
  (forall c, In c s -> isspace (f c) = isspace c) ->
  lstrip (map f s) = map f (lstrip s).
Proof.
  induction s as [|c s IH]; intros Hp; simpl; [reflexivity|].
  rewrite (Hp c) by (left; reflexivity).
  destruct (isspace c); [|reflexivity].
  apply IH. intros; apply Hp; right; assumption.
Qed.

Lemma rstrip_map s :
  (forall c, In c s -> isspace (f c) = isspace c) ->
  rstrip (map f s) = map f (rstrip s).
Proof.
  induction s as [|c s IH]; intros Hp; simpl; [reflexivity|].
  rewrite IH by (intros; apply Hp; right; assumption).
  rewrite (Hp c) by (left; reflexivity).
  destruct (rstrip s); simpl; [destruct (isspace c)|]; reflexivity.
Qed.

End Renaming.

(** The fold of Latin letters keeps the classes and is idempotent. *)
Lemma table_get_In tbl c v : table_get tbl c = Some v -> In (c, v) tbl.
Proof.
  induction tbl as [|[k w] tbl IH]; simpl; [discriminate|].
  destruct (N.eqb_spec c k) as [->|_]; intros H.
  - injection H as ->. left; reflexivity.
  - right; auto.
Qed.

Lemma folded_target_not_folded c v :
  table_get map_l2c c = Some v ->
  table_get map_l2c v = None /\ v <> CAPITAL_SIGMA.
Proof.
  intros H. apply table_get_In in H.
  revert c v H.
  change (forall c v, In (c, v) map_l2c -> table_get map_l2c v = None /\ v <> CAPITAL_SIGMA).
  intros c v H.
  assert (Hall : Forall (fun kv => table_get map_l2c (snd kv) = None /\ snd kv <> CAPITAL_SIGMA) map_l2c)
    by (repeat constructor; discriminate).
  rewrite List.Forall_forall in Hall. apply (Hall (c, v) H).
Qed.

Lemma fold_idempotent c :
  translate_char map_l2c (translate_char map_l2c c) = translate_char map_l2c c.
Proof.
  unfold translate_char at 2 3.
  destruct (table_get map_l2c c) as [v|] eqn:Hc.
  - unfold translate_char. destruct (folded_target_not_folded c v Hc) as [-> _]. reflexivity.
  - unfold translate_char. rewrite Hc. reflexivity.
Qed.

Lemma fold_keeps_space c :
  isspace (translate_char map_l2c c) = isspace c.
Proof.
  unfold translate_char. destruct (table_get map_l2c c) as [v|] eqn:Hc; [|reflexivity].
  apply table_get_In, folded_letters in Hc as (Hk & Hv & _).
  rewrite (alnum_not_space _ Hk), (alnum_not_space _ Hv). reflexivity.
Qed.

Lemma fold_keeps_word c :
  is_word (translate_char map_l2c c) = is_word c.
Proof.
  unfold translate_char. destruct (table_get map_l2c c) as [v|] eqn:Hc; [|reflexivity].
  apply table_get_In, folded_letters in Hc as (Hk & Hv & _).
  unfold is_word. rewrite Hk, Hv. reflexivity.
Qed.

Lemma fold_lower_fixed c : lower_fixed c -> lower_fixed (translate_char map_l2c c).
Proof.
  intros Hc. unfold translate_char.
  destruct (table_get map_l2c c) as [v|] eqn:Hg; [|assumption].
  split.
  - apply table_get_In, folded_letters in Hg as (_ & _ & Hv). exact Hv.
  - apply (folded_target_not_folded c v Hg).
Qed.

(** What the steps before the fold produce. *)
Lemma space_lower_fixed : lower_fixed SPACE.
Proof. split; [apply space_lower | discriminate]. Qed.

Lemma space_not_punctuation : not_word_nor_space SPACE = false.
Proof. unfold not_word_nor_space. rewrite space_isspace, orb_true_r. reflexivity. Qed.

Lemma unfolded_lower_fixed text : Forall lower_fixed (unfolded text).
Proof.
  unfold unfolded, sub_runs.
  apply strip_chars; repeat apply sub_runs_from_chars;
    try (repeat constructor; apply space_lower_fixed).
  apply lower_from_chars.
Qed.

Lemma unfolded_no_punctuation text :
  Forall (fun c => not_word_nor_space c = false) (unfolded text).
Proof.
  unfold unfolded, sub_runs.
  apply strip_chars, sub_runs_from_chars;
    try (repeat constructor; apply space_not_punctuation).
  apply sub_runs_from_clears. repeat constructor. apply space_not_punctuation.
Qed.

Lemma unfolded_single_spaced text : single_spaced false (unfolded text) = true.
Proof.
  unfold unfolded, sub_runs, strip.
  apply single_spaced_rstrip, (single_spaced_lstrip _ false), collapse_single_spaced.
Qed.

Lemma unfolded_stripped text : strip (unfolded text) = unfolded text.
Proof. unfold unfolded. apply strip_idempotent. Qed.

Lemma normalize_fixed_by_lower text : lower (_normalize text) = _normalize text.
Proof.
  apply lower_from_fixed. unfold _normalize, translate.
  apply Forall_map. eapply Forall_impl; [apply unfolded_lower_fixed|].
  intros c Hc. apply fold_lower_fixed, Hc.
Qed.

Lemma unfolded_normalize text : unfolded (_normalize text) = _normalize text.
Proof.
  unfold unfolded at 1. rewrite normalize_fixed_by_lower.
  unfold _normalize, translate, sub_runs.
  rewrite sub_runs_from_map; [|intros c _; unfold not_word_nor_space;
    rewrite fold_keeps_word, fold_keeps_space; reflexivity | reflexivity].
  rewrite (sub_runs_from_none not_word_nor_space) by apply unfolded_no_punctuation.
  rewrite sub_runs_from_map; [|intros c _; apply fold_keeps_space | reflexivity].
  rewrite single_spaced_collapse by apply unfolded_single_spaced.
  unfold strip.
  rewrite lstrip_map, rstrip_map by (intros c _; apply fold_keeps_space).
  fold (strip (unfolded text)). rewrite unfolded_stripped. reflexivity.
Qed.

End NormalizerFacts.

(** C9: the normaliser is idempotent, for every table of the character
    database that satisfies the laws. *)
Theorem normalize_idempotent (U : UnicodeData) (L : UnicodeLaws U) (x : str) :
  _normalize (_normalize x) = _normalize x.
Proof.
  unfold _normalize at 1. rewrite unfolded_normalize.
  unfold _normalize, translate. rewrite map_map.
  apply map_ext. intros c. apply fold_idempotent.
Qed.

(** * The interpreter's tables satisfy the laws *)

Lemma in_range_spec lo hi c : in_range lo hi c = true <-> lo <= c <= hi.
Proof. unfold in_range. rewrite andb_true_iff, !N.leb_le. tauto. Qed.

Lemma in_range_false lo hi c : in_range lo hi c = false <-> c < lo \/ hi < c.
Proof.
  unfold in_range. rewrite andb_false_iff, !N.leb_gt. tauto.
Qed.

Ltac ranges :=
  unfold in_ranges, upper_plus_32, alnum_ranges, space_ranges in *;
  cbn [existsb fst snd] in *;
  rewrite ?orb_false_r in *;
  repeat rewrite ?orb_true_iff, ?orb_false_iff, ?in_range_spec, ?in_range_false in *.

#[export] Instance interpreter_tables_laws : UnicodeLaws interpreter_tables.
Proof.
  split.
  - intros c d. cbn [to_lower_full interpreter_tables].
    assert (Hfix : forall x, in_ranges upper_plus_32 x = false -> in_range 0x400 0x40F x = false ->
       (if in_ranges upper_plus_32 x then [x + 32] else if in_range 0x400 0x40F x then [x + 80] else [x]) = [x]).
    { intros x -> ->. reflexivity. }
    destruct (in_ranges upper_plus_32 c) eqn:H1; [|destruct (in_range 0x400 0x40F c) eqn:H2];
      intros [<-|[]]; (split; [apply Hfix|]); ranges; unfold CAPITAL_SIGMA; lia.
  - split; reflexivity.
  - reflexivity.
  - reflexivity.
  - intros c. cbn [isalnum isspace interpreter_tables]. intros H.
    apply not_true_is_false. intros H'. ranges. lia.
  - intros k v H. cbn [isalnum to_lower_full interpreter_tables].
    assert (Hall : Forall (fun kv : char * char => in_ranges alnum_ranges (fst kv) = true /\
        in_ranges alnum_ranges (snd kv) = true /\
        (if in_ranges upper_plus_32 (snd kv) then [snd kv + 32]
         else if in_range 0x400 0x40F (snd kv) then [snd kv + 80] else [snd kv]) = [snd kv]) map_l2c)
      by (repeat constructor).
    rewrite List.Forall_forall in Hall. apply (Hall (k, v) H).
Qed.

Lemma normalize_idempotent_witness :
  _normalize (_normalize (u "Urgent! Transfer money now, you won a prize!")) =
  _normalize (u "Urgent! Transfer money now, you won a prize!").
Proof. apply (normalize_idempotent interpreter_tables interpreter_tables_laws). Defined.

(** * The order on strings *)

Lemma str_leb_refl a : str_leb a a = true.
Proof. induction a as [|x a IH]; simpl; [reflexivity|]. rewrite N.ltb_irrefl, N.eqb_refl. exact IH. Qed.

#[export] Instance str_le_total : Total str_le.
Proof.
  intros a. unfold str_le. induction a as [|x a IH]; intros [|y b]; simpl; auto.
  destruct (N.ltb_spec x y), (N.ltb_spec y x), (N.eqb_spec x y), (N.eqb_spec y x); auto; lia.
Qed.

#[export] Instance str_le_trans : Transitive str_le.
Proof.
  intros a. unfold str_le. induction a as [|x a IH]; intros [|y b] [|z c]; simpl; auto; try discriminate.
  destruct (N.ltb_spec x y), (N.ltb_spec y z), (N.ltb_spec x z),
    (N.eqb_spec x y), (N.eqb_spec y z), (N.eqb_spec x z); auto; try discriminate; try lia.
  apply IH.
Qed.

#[export] Instance str_le_antisym : AntiSymm (=) str_le.
Proof.
  intros a. unfold str_le. induction a as [|x a IH]; intros [|y b]; simpl; auto; try discriminate.
  destruct (N.ltb_spec x y), (N.ltb_spec y x), (N.eqb_spec x y), (N.eqb_spec y x);
    try discriminate; try lia.
  intros H1 H2. subst. f_equal. auto.
Qed.

(** * The keyword list *)

Lemma sorted_set_sorted xs : StronglySorted str_le (sorted_set xs).
Proof. apply StronglySorted_merge_sort; apply _. Qed.

Lemma sorted_set_NoDup xs : NoDup (sorted_set xs).
Proof. unfold sorted_set. rewrite merge_sort_Permutation. apply NoDup_remove_dups. Qed.

Lemma sorted_set_elem xs x : In x (sorted_set xs) <-> In x xs.
Proof.
  unfold sorted_set. rewrite <- !list_elem_of_In, merge_sort_Permutation.
  apply elem_of_remove_dups.
Qed.

(** [sorted(set(xs))] does not depend on the order in which the set is
    visited: a sorted list without repetitions is determined by its elements. *)
Lemma sorted_set_unique xs l :
  StronglySorted str_le l -> NoDup l -> (forall x, In x l <-> In x xs) ->
  l = sorted_set xs.
Proof.
  intros Hs Hn Hl. apply (StronglySorted_unique str_le); auto using sorted_set_sorted.
  apply NoDup_Permutation; auto using sorted_set_NoDup.
  intros x. rewrite !list_elem_of_In, Hl, sorted_set_elem. reflexivity.
Qed.

Section KeywordFacts.
Context {U : UnicodeData} {L : UnicodeLaws U}.

Lemma lowered_strings_lower items e :
  In e (lowered_strings items) -> exists k, In (JString k) items /\ e = lower k.
Proof.
  induction items as [|j items IH]; simpl; [tauto|].
  destruct j; simpl; try (intros H; destruct (IH H) as (k & ? & ?); eauto).
  intros [<-|H]; [eauto|]. destruct (IH H) as (k & ? & ?); eauto.
Qed.

(** On the branch that reads the file the list is sorted, without
    repetitions and in lower case. *)
Lemma load_keywords_from_file data keywords :
  (kws <- json_get data (u "keywords") (JArray []) ;;
   items <- json_iter kws ;;
   Returns (sorted_set (lowered_strings items))) = Returns keywords ->
  load_keywords (Returns data) = keywords /\
  StronglySorted str_le keywords /\ NoDup keywords /\
  Forall (fun kw => lower kw = kw) keywords.
Proof.
  intros H. unfold load_keywords. cbn [bind]. rewrite H.
  split; [reflexivity|].
  destruct (json_get data (u "keywords") (JArray [])) as [kws|]; [|discriminate].
  cbn [bind] in H. destruct (json_iter kws) as [items|]; [|discriminate].
  cbn [bind] in H. injection H as <-.
  split; [apply sorted_set_sorted|]. split; [apply sorted_set_NoDup|].
  apply List.Forall_forall. intros e He. apply (proj1 (sorted_set_elem _ _)) in He.
  apply lowered_strings_lower in He as (k & _ & ->). apply lower_idempotent.
Qed.

End KeywordFacts.

(** * The aggregation of the detectors *)

Section DetectorFacts.
Context {U : UnicodeData}.

Lemma looks_suspicious_reasons KEYWORDS text :
  snd (looks_suspicious KEYWORDS text) = reasons_in_order KEYWORDS (_normalize text).
Proof.
  unfold looks_suspicious, reasons_in_order. cbn [snd].
  destruct (keyword_hits KEYWORDS (_normalize text)), (has_link_marker (_normalize text)),
    (has_money (_normalize text)), (has_action_reward (_normalize text)); reflexivity.
Qed.

Lemma looks_suspicious_verdict KEYWORDS text :
  fst (looks_suspicious KEYWORDS text) = true <-> snd (looks_suspicious KEYWORDS text) <> [].
Proof.
  unfold looks_suspicious. cbn [fst snd].
  match goal with |- (0 <? length ?l)%nat = true <-> _ => destruct l end; simpl.
  - split; [discriminate | congruence].
  - split; [discriminate | reflexivity].
Qed.

Ltac reason_cases H :=
  repeat match type of H with
  | In _ (_ ++ _) => apply in_app_or in H as [H|H]
  | In _ (match ?x with [] => _ | _ => _ end) => destruct x eqn:?
  | In _ (if ?b then _ else _) => destruct b eqn:?
  | In _ [] => destruct H
  | In _ [_] => destruct H as [H|[]]
  end.

Lemma money_reason_iff KEYWORDS text :
  In reason_money (snd (looks_suspicious KEYWORDS text)) <-> has_money (_normalize text) = true.
Proof.
  rewrite looks_suspicious_reasons. unfold reasons_in_order. split.
  - intros H. reason_cases H; try discriminate H; reflexivity.
  - intros ->. apply in_or_app; right. apply in_or_app; right.
    apply in_or_app; left. left; reflexivity.
Qed.

Lemma action_reward_reason_iff KEYWORDS text :
  In reason_action_reward (snd (looks_suspicious KEYWORDS text)) <->
  has_action_reward (_normalize text) = true.
Proof.
  rewrite looks_suspicious_reasons. unfold reasons_in_order. split.
  - intros H. reason_cases H; try discriminate H; reflexivity.
  - intros ->. apply in_or_app; right. apply in_or_app; right.
    apply in_or_app; right. left; reflexivity.
Qed.

Lemma link_reason_iff KEYWORDS text :
  In reason_link (snd (looks_suspicious KEYWORDS text)) <->
  has_link_marker (_normalize text) = true.
Proof.
  rewrite looks_suspicious_reasons. unfold reasons_in_order. split.
  - intros H. reason_cases H; try discriminate H; reflexivity.
  - intros ->. apply in_or_app; right. apply in_or_app; left. left; reflexivity.
Qed.

(** The normalised text holds no letter that the fold replaces. *)
Lemma normalize_no_folded_letter text :
  Forall (fun c => table_get map_l2c c = None) (_normalize text).
Proof.
  unfold _normalize, translate. apply Forall_map, List.Forall_forall. intros c _.
  unfold translate_char. destruct (table_get map_l2c c) as [v|] eqn:Hc; [|exact Hc].
  apply (folded_target_not_folded c v Hc).
Qed.

Lemma is_prefix_chars p : forall s c, is_prefix p s = true -> In c p -> In c s.
Proof.
  induction p as [|x p IH]; intros [|y s] c H Hc; simpl in *;
    try discriminate; try tauto.
  apply andb_prop in H as [Hx Hp]. apply N.eqb_eq in Hx. subst y.
  destruct Hc as [->|Hc]; [left; reflexivity | right; eauto].
Qed.

Lemma contains_chars s : forall m c, contains s m = true -> In c m -> In c s.
Proof.
  induction s as [|x s IH]; intros m c H Hc; simpl in H.
  - rewrite orb_false_r in H. eapply is_prefix_chars; eauto.
  - apply orb_prop in H as [H|H]; [eapply is_prefix_chars; eauto|].
    right. eauto.
Qed.

Lemma folded_marker_never_found text m :
  has_folded_letter m = true -> contains (_normalize text) m = false.
Proof.
  intros Hm. apply not_true_is_false. intros Hc.
  apply existsb_exists in Hm as (c & Hin & Hfold).
  pose proof (normalize_no_folded_letter text) as Hall.
  rewrite List.Forall_forall in Hall.
  rewrite (Hall c (contains_chars _ _ _ Hc Hin)) in Hfold. discriminate.
Qed.

(** Of the twelve link markers only the two Cyrillic words can be found. *)
Lemma link_detector_sees_cyrillic_only text :
  has_link_marker (_normalize text) =
  contains (_normalize text) (u "ссылка") || contains (_normalize text) (u "перейди").
Proof.
  unfold has_link_marker, link_markers. cbn [existsb].
  rewrite !(folded_marker_never_found text) by reflexivity.
  rewrite orb_false_r. reflexivity.
Qed.

End DetectorFacts.

Lemma latin_markers_have_folded_letter :
  forallb has_folded_letter (take 10 link_markers) = true.
Proof. reflexivity. Qed.

Section WordFacts.
Context {U : UnicodeData}.

Lemma rmatch_RStr w : forall prev s k,
  rmatch (RStr w) prev s k = true -> is_prefix w s = true.
Proof.
  induction w as [|c w IH]; intros prev s k H; [reflexivity|].
  destruct s as [|x s]; [discriminate H|]. cbn in H |- *.
  apply andb_prop in H as [Hx H]. apply N.eqb_eq in Hx. subst x.
  rewrite N.eqb_refl. simpl. eauto.
Qed.

Lemma search_whole_word_contains w s : forall prev,
  search_from (whole_word w) prev s = true -> contains s w = true.
Proof.
  induction s as [|x s IH]; intros prev H; simpl in H.
  - rewrite orb_false_r in H. apply andb_prop in H as [_ H].
    apply rmatch_RStr in H. simpl. rewrite H. reflexivity.
  - apply orb_prop in H as [H|H].
    + apply andb_prop in H as [_ H]. apply rmatch_RStr in H.
      cbn [contains]. rewrite H. reflexivity.
    + cbn [contains]. rewrite (IH _ H). apply orb_true_r.
Qed.

(** A word with one of the twelve folded Latin letters is never found in
    normalised text. *)
Lemma folded_word_never_matches text w :
  has_folded_letter w = true -> re_search (whole_word w) (_normalize text) = false.
Proof.
  intros Hw. apply not_true_is_false. intros H.
  apply search_whole_word_contains in H.
  rewrite (folded_marker_never_found text w Hw) in H. discriminate.
Qed.

End WordFacts.

(** * Where the link detector does see a marker of the raw text *)

Lemma is_prefix_app m : forall s, is_prefix m s = true <-> exists b, s = m ++ b.
Proof.
  induction m as [|x m IH]; intros s; simpl.
  - split; [eauto | reflexivity].
  - destruct s as [|y s].
    + split; [discriminate | intros [b Hb]; discriminate Hb].
    + rewrite andb_true_iff, N.eqb_eq, IH. split.
      * intros [-> [b ->]]. eauto.
      * intros [b Hb]. injection Hb as -> ->. eauto.
Qed.

Lemma contains_app s : forall m, contains s m = true <-> exists a b, s = a ++ m ++ b.
Proof.
  induction s as [|y s IH]; intros m; cbn [contains]; rewrite orb_true_iff, is_prefix_app.
  - split.
    + intros [[b Hb]|H]; [exists [], b; exact Hb | discriminate H].
    + intros (a & b & H). left. destruct a; [eauto|discriminate H].
  - rewrite IH. split.
    + intros [[b Hb]|(a & b & ->)]; [exists [], b; exact Hb | exists (y :: a), b; reflexivity].
    + intros ([|x a] & b & H); [left; eauto|].
      injection H as -> ->. right; eauto.
Qed.

Section RawMarkers.
Context {U : UnicodeData} {L : UnicodeLaws U}.

Lemma lower_from_app a : forall before rest,
  exists a', lower_from before (a ++ rest) = a' ++ lower_from (rev a ++ before) rest.
Proof.
  induction a as [|c a IH]; intros before rest; simpl.
  - exists []. reflexivity.
  - destruct (IH (c :: before) rest) as [a' ->].
    rewrite <- (app_assoc (rev a) [c] before). simpl.
    eexists. apply app_assoc.
Qed.

Lemma lower_from_word m : forall before rest,
  Forall lower_fixed m ->
  exists rest', lower_from before (m ++ rest) = m ++ rest'.
Proof.
  induction m as [|c m IH]; intros before rest Hm; simpl; [eauto|].
  inversion Hm as [|? ? [Hc Hne] Hm']; subst.
  apply N.eqb_neq in Hne. rewrite Hne, Hc.
  destruct (IH (c :: before) rest Hm') as [rest' ->]. simpl. eauto.
Qed.

Lemma sub_runs_from_word p repl m : forall b rest,
  Forall (fun c => p c = false) m -> m <> [] ->
  sub_runs_from p repl b (m ++ rest) = m ++ sub_runs_from p repl false rest.
Proof.
  induction m as [|c m IH]; intros b rest Hm Hne; [congruence|].
  inversion Hm as [|? ? Hc Hm']; subst. simpl. rewrite Hc. f_equal.
  destruct m as [|d m]; [reflexivity|]. apply IH; [assumption | discriminate].
Qed.

Lemma sub_runs_from_app p repl a : forall b rest,
  exists a' b', sub_runs_from p repl b (a ++ rest) = a' ++ sub_runs_from p repl b' rest.
Proof.
  induction a as [|c a IH]; intros b rest; simpl.
  - exists [], b. reflexivity.
  - destruct (p c).
    + destruct (IH true rest) as (a' & b' & ->). eexists _, b'. rewrite app_assoc. reflexivity.
    + destruct (IH false rest) as (a' & b' & ->). exists (c :: a'), b'. reflexivity.
Qed.

Lemma lstrip_app_word a c rest :
  isspace c = false -> exists a', lstrip (a ++ c :: rest) = a' ++ c :: rest.
Proof.
  intros Hc. induction a as [|x a IH]; simpl.
  - rewrite Hc. exists []. reflexivity.
  - destruct (isspace x); [exact IH | exists (x :: a); reflexivity].
Qed.

Lemma rstrip_cons_word c rest : isspace c = false -> rstrip (c :: rest) = c :: rstrip rest.
Proof. intros Hc. simpl. destruct (rstrip rest); [rewrite Hc|]; reflexivity. Qed.

Lemma rstrip_word m : forall rest,
  Forall (fun c => isspace c = false) m -> rstrip (m ++ rest) = m ++ rstrip rest.
Proof.
  induction m as [|c m IH]; intros rest Hm; [reflexivity|].
  inversion Hm; subst. rewrite <- app_comm_cons, rstrip_cons_word, IH by assumption.
  reflexivity.
Qed.

Lemma rstrip_app a : forall x, rstrip x <> [] -> rstrip (a ++ x) = a ++ rstrip x.
Proof.
  induction a as [|c a IH]; intros x Hx; [reflexivity|].
  simpl. rewrite (IH x Hx).
  destruct (a ++ rstrip x) eqn:E; [|reflexivity].
  apply app_eq_nil in E as [_ E]. contradiction.
Qed.

(** A plain word of the raw text is still there after [_normalize]. *)
Lemma normalize_keeps_plain_word text m :
  plain_word m -> contains text m = true -> contains (_normalize text) m = true.
Proof.
  intros [Hne Hm] Hc. apply contains_app in Hc as (a & b & ->).
  assert (Hfixed : Forall lower_fixed m) by (eapply Forall_impl; [exact Hm | intros c (_ & H & _); exact H]).
  assert (Hspace : Forall (fun c => isspace c = false) m).
  { eapply Forall_impl; [exact Hm|]. intros c (Hc & _). apply alnum_not_space, Hc. }
  assert (Hpunct : Forall (fun c => not_word_nor_space c = false) m).
  { eapply Forall_impl; [exact Hm|]. intros c (Hc & _).
    unfold not_word_nor_space, is_word. rewrite Hc. reflexivity. }
  assert (Hmap : map (translate_char map_l2c) m = m).
  { clear Hne Hfixed Hspace Hpunct. induction Hm as [|c m (_ & _ & Hc) _ IH]; [reflexivity|].
    simpl. rewrite IH. unfold translate_char. rewrite Hc. reflexivity. }
  apply contains_app. unfold _normalize, unfolded, lower, sub_runs, strip.
  destruct (lower_from_app a [] (m ++ b)) as [a1 ->].
  destruct (lower_from_word m (rev a ++ []) b Hfixed) as [b1 ->].
  destruct (sub_runs_from_app not_word_nor_space [SPACE] a1 false (m ++ b1)) as (a2 & f2 & ->).
  rewrite (sub_runs_from_word _ _ m f2 b1 Hpunct Hne).
  destruct (sub_runs_from_app isspace [SPACE] a2 false
              (m ++ sub_runs_from not_word_nor_space [SPACE] false b1)) as (a3 & f3 & ->).
  rewrite (sub_runs_from_word _ _ m f3 _ Hspace Hne).
  destruct m as [|c m]; [congruence|].
  inversion Hspace as [|? ? Hcs Hms]; subst.
  rewrite <- app_comm_cons.
  destruct (lstrip_app_word a3 c
              (m ++ sub_runs_from isspace [SPACE] false
                      (sub_runs_from not_word_nor_space [SPACE] false b1)) Hcs) as [a4 ->].
  rewrite rstrip_app by (rewrite rstrip_cons_word by assumption; discriminate).
  rewrite rstrip_cons_word, rstrip_word by assumption.
  unfold translate. rewrite map_app. change (c :: m ++ ?x) with ((c :: m) ++ x).
  rewrite map_app, Hmap. eauto.
Qed.

(** For the two Cyrillic markers the link detector answers to the raw text. *)
Lemma cyrillic_marker_in_raw_text_is_reported KEYWORDS text m :
  m = u "ссылка" \/ m = u "перейди" -> plain_word m ->
  contains text m = true ->
  In reason_link (snd (looks_suspicious KEYWORDS text)).
Proof.
  intros Hm Hplain Hc. apply link_reason_iff.
  rewrite link_detector_sees_cyrillic_only.
  pose proof (normalize_keeps_plain_word text m Hplain Hc) as H.
  destruct Hm as [->| ->]; rewrite H; [reflexivity | apply orb_true_r].
Qed.

End RawMarkers.

Lemma cyrillic_markers_plain :
  plain_word (u "ссылка") /\ plain_word (u "перейди").
Proof.
  split; (split; [discriminate|]); repeat constructor; vm_compute; congruence.
Qed.

(** ** Messages of the specification *)

(** Before the fold the keyword detector finds four keywords in the message;
    after it none. *)
Lemma urgent_transfer_keywords_before_fold :
  let message := u "Urgent! Transfer money now, you won a prize!" in
  keyword_hits fallback_keywords (unfolded message) =
    map u ["transfer"; "urgent"; "money"; "prize"]%string /\
  keyword_hits fallback_keywords (_normalize message) = [].
Proof. split; vm_compute; reflexivity. Qed.


(** C1, as stated, fails: on the message of the specification, with the
    fallback keyword list, the verdict is "not suspicious" with no reason at
    all, so it is not the case that the verdict is true with the action and
    reward reason present. *)
Lemma urgent_transfer_not_flagged :
  let verdict :=
    looks_suspicious fallback_keywords (u "Urgent! Transfer money now, you won a prize!") in
  verdict = (false, []) /\
  ~ (fst verdict = true /\ In reason_action_reward (snd verdict)).
Proof.
  assert (H : looks_suspicious fallback_keywords
                (u "Urgent! Transfer money now, you won a prize!") = (false, []))
    by (vm_compute; reflexivity).
  cbv zeta. rewrite H. split; [reflexivity|]. intros [Hf _]. discriminate Hf.
Qed.

(** C1, amended: for the message "Urgent! Transfer money now, you won a
    prize!" and any keyword list, the reasons do not contain the action and
    reward reason, because no word of the built-in action list occurs in the
    message, neither before nor after the fold of Latin letters. *)
Theorem urgent_transfer_no_action_word :
  let message := u "Urgent! Transfer money now, you won a prize!" in
  existsb (fun a => re_search (whole_word a) (unfolded message)) actions = false /\
  existsb (fun a => re_search (whole_word a) (_normalize message)) actions = false /\
  forall KEYWORDS, ~ In reason_action_reward (snd (looks_suspicious KEYWORDS message)).
Proof.
  cbv zeta. split; [vm_compute; reflexivity|]. split; [vm_compute; reflexivity|].
  intros KEYWORDS H. apply action_reward_reason_iff in H.
  vm_compute in H. discriminate H.
Qed.

(** C2, on the code: the message "https://bit.ly/abc" contains the markers
    "https://" and "bit.ly", yet the verdict has no reason at all, and with
    no keyword list does the link reason appear.  The markers are looked for
    in the normalised text, where punctuation is gone and Latin letters are
    folded ([link_detector_sees_cyrillic_only]). *)
Theorem link_marker_missed :
  let message := u "https://bit.ly/abc" in
  contains message (u "https://") = true /\
  contains message (u "bit.ly") = true /\
  looks_suspicious fallback_keywords message = (false, []) /\
  forall KEYWORDS, ~ In reason_link (snd (looks_suspicious KEYWORDS message)).
Proof.
  cbv zeta. repeat split; try (vm_compute; reflexivity).
  intros KEYWORDS H. apply link_reason_iff in H. vm_compute in H. discriminate H.
Qed.

(** C7: for every text and keyword list the verdict is true exactly when the
    list of reasons is not empty, the reasons are those of the detectors that
    fire, in the order keyword, link, currency, action and reward, and the
    message "Let's meet for coffee tomorrow" gives a false verdict with no
    reason. *)
Theorem verdict_and_reasons_in_detector_order (U : UnicodeData) (KEYWORDS : list str) (text : str) :
  let verdict := looks_suspicious KEYWORDS text in
  let t := _normalize text in
  (fst verdict = true <-> snd verdict <> []) /\
  snd verdict =
    (match keyword_hits KEYWORDS t with [] => [] | hits => [reason_keywords hits] end)
    ++ (if has_link_marker t then [reason_link] else [])
    ++ (if has_money t then [reason_money] else [])
    ++ (if has_action_reward t then [reason_action_reward] else []) /\
  @looks_suspicious interpreter_tables fallback_keywords
    (u "Let's meet for coffee tomorrow") = (false, []).
Proof.
  cbv zeta. split; [apply looks_suspicious_verdict|].
  split; [apply looks_suspicious_reasons | vm_compute; reflexivity].
Qed.

(** C10: whatever the keyword list, the currency detector reports "Please
    send 1,500.00 USD today" and does not report "room 1500". *)
Theorem currency_detector_examples (KEYWORDS : list str) :
  In reason_money (snd (looks_suspicious KEYWORDS (u "Please send 1,500.00 USD today"))) /\
  ~ In reason_money (snd (looks_suspicious KEYWORDS (u "room 1500"))).
Proof.
  rewrite !money_reason_iff. split; [vm_compute; reflexivity|].
  vm_compute. discriminate.
Qed.

(** ** The keyword list on the fallback branch *)

(** C8, on the code: when the keyword file cannot be read, [load_keywords]
    returns the built-in list, which is in lower case and without repetitions
    but not sorted ("urgent" comes before "money"); the branch that reads the
    file sorts ([load_keywords_from_file]). *)
Theorem fallback_keywords_not_sorted :
  let keywords := load_keywords (Raises (u "FileNotFoundError")) in
  keywords = fallback_keywords /\
  NoDup keywords /\ Forall (fun kw => lower kw = kw) keywords /\
  ~ Sorted str_le keywords.
Proof.
  cbv zeta. split; [reflexivity|]. split; [|split].
  - compute_done.
  - compute_done.
  - intros H. change (load_keywords (Raises (u "FileNotFoundError"))) with fallback_keywords in H.
    unfold fallback_keywords in H.
    inversion H as [|? ? H1 _]; subst. inversion H1 as [|? ? _ H2]; subst.
    inversion H2 as [|? ? H3]; subst. vm_compute in H3. discriminate H3.
Qed.

(** * The explanation arbiter *)

Lemma Qlt_bool_iff x y : Qlt_bool x y = true <-> (x < y)%Q.
Proof.
  unfold Qlt_bool. rewrite negb_true_iff. split.
  - intros H. apply Qnot_le_lt. intros Hle. apply Qle_bool_iff in Hle. congruence.
  - intros H. apply not_true_is_false. intros Hle. apply Qle_bool_iff in Hle.
    apply (Qlt_not_le _ _ H Hle).
Qed.

Lemma Qlt_bool_false x y : ~ (x < y)%Q -> Qlt_bool x y = false.
Proof. intros H. apply not_true_is_false. rewrite Qlt_bool_iff. exact H. Qed.

Lemma local_fallback_tip_nonempty lang : _local_fallback_tip lang <> [].
Proof. unfold _local_fallback_tip. destruct (str_eqb lang (u "ru")); discriminate. Qed.

Section ArbiterFacts.
Context {U : UnicodeData}.

(** What a call does once it is past the gate. *)
Lemma ai_explain_safety_attempt req w :
  ~ (now req < _ai_cooldown_until (ai w))%Q ->
  ai_explain_safety true req w =
    let w0 := {| ai := ai w; sent := sent w ++ [full_prompt (text req) (lang req)] |} in
    match _call req with
    | Returns out =>
      (Returns (Some (match out with
                      | [] => _local_fallback_tip (lang req)
                      | _ => take 500 out
                      end)), w0)
    | Raises msg =>
      (Returns (Some (_local_fallback_tip (lang req))),
       if is_quota_error msg then
         {| ai := {| _ai_cooldown_until :=
                       (now_failed req +
                        Qmin (match retry_delay_digits msg with
                              | Some ds => float_of_digits ds
                              | None => _ai_backoff_sec (ai w)
                              end) _ai_backoff_max)%Q;
                     _ai_backoff_sec := Qmin (_ai_backoff_sec (ai w) * 2) _ai_backoff_max |};
            sent := sent w0 |}
       else w0)
    end.
Proof.
  intros H. unfold ai_explain_safety. rewrite (Qlt_bool_false _ _ H). reflexivity.
Qed.

Lemma call_raises req msg :
  generate_content req (full_prompt (text req) (lang req)) = Raises msg ->
  _call req = Raises msg.
Proof. unfold _call. intros ->. reflexivity. Qed.

Lemma serve_disabled reqs w :
  serve false reqs w =
  (map (fun req => Returns (Some (_local_fallback_tip (lang req)))) reqs, w).
Proof.
  induction reqs as [|req reqs IH]; simpl; [reflexivity|].
  rewrite IH. reflexivity.
Qed.

End ArbiterFacts.

Lemma Qmin_double_capped b :
  (Qmin (Qmin (b * 2) _ai_backoff_max) _ai_backoff_max ==
   Qmin (2 * Qmin b _ai_backoff_max) _ai_backoff_max)%Q.
Proof.
  unfold _ai_backoff_max.
  destruct (Q.min_spec b 3600) as [[H1 E1]|[H1 E1]];
  destruct (Q.min_spec (b * 2) 3600) as [[H2 E2]|[H2 E2]];
  destruct (Q.min_spec (Qmin (b * 2) 3600) 3600) as [[H3 E3]|[H3 E3]];
  destruct (Q.min_spec (2 * Qmin b 3600) 3600) as [[H4 E4]|[H4 E4]];
  rewrite E3, E4; rewrite ?E1, ?E2 in *; lra.
Qed.

(** C3: a call that gets past the gate and fails with a quota error at time
    [now_failed] sets the cooldown to that time plus the smaller of the delay
    (the one found in the message, else the current backoff) and 3600, and
    doubles the backoff up to 3600; when neither this failure nor the next
    carries a delay, the second cooldown window is twice the first, capped at
    3600. *)
Theorem quota_failure_sets_cooldown_and_doubles_backoff
    (U : UnicodeData) (req : Request) (w : World) (msg : str) :
  ~ (now req < _ai_cooldown_until (ai w))%Q ->
  generate_content req (full_prompt (text req) (lang req)) = Raises msg ->
  is_quota_error msg = true ->
  let w1 := snd (ai_explain_safety true req w) in
  let delay :=
    match retry_delay_digits msg with
    | Some ds => float_of_digits ds
    | None => _ai_backoff_sec (ai w)
    end in
  _ai_cooldown_until (ai w1) = (now_failed req + Qmin delay _ai_backoff_max)%Q /\
  _ai_backoff_sec (ai w1) = Qmin (_ai_backoff_sec (ai w) * 2) _ai_backoff_max /\
  forall (req2 : Request) (msg2 : str),
    retry_delay_digits msg = None ->
    ~ (now req2 < _ai_cooldown_until (ai w1))%Q ->
    generate_content req2 (full_prompt (text req2) (lang req2)) = Raises msg2 ->
    is_quota_error msg2 = true ->
    retry_delay_digits msg2 = None ->
    let w2 := snd (ai_explain_safety true req2 w1) in
    (_ai_cooldown_until (ai w2) - now_failed req2 ==
     Qmin (2 * (_ai_cooldown_until (ai w1) - now_failed req)) _ai_backoff_max)%Q.
Proof.
  intros Hgate Hraise Hquota w1 delay.
  assert (Hw1 : ai w1 =
    {| _ai_cooldown_until := (now_failed req + Qmin delay _ai_backoff_max)%Q;
       _ai_backoff_sec := Qmin (_ai_backoff_sec (ai w) * 2) _ai_backoff_max |}).
  { unfold w1. rewrite (ai_explain_safety_attempt req w Hgate), (call_raises req msg Hraise).
    cbv zeta. rewrite Hquota. reflexivity. }
  split; [rewrite Hw1; reflexivity|]. split; [rewrite Hw1; reflexivity|].
  intros req2 msg2 Hnone Hgate2 Hraise2 Hquota2 Hnone2.
  rewrite (ai_explain_safety_attempt req2 w1 Hgate2), (call_raises req2 msg2 Hraise2).
  cbv zeta. rewrite Hquota2, Hnone2, Hw1.
  cbn [snd ai _ai_cooldown_until _ai_backoff_sec].
  unfold delay. rewrite Hnone.
  pose proof (Qmin_double_capped (_ai_backoff_sec (ai w))) as E.
  assert (E2 : (now_failed req + Qmin (_ai_backoff_sec (ai w)) _ai_backoff_max - now_failed req
                == Qmin (_ai_backoff_sec (ai w)) _ai_backoff_max)%Q) by ring.
  rewrite E2, <- E. ring.
Qed.

Lemma quota_failure_sets_cooldown_and_doubles_backoff_witness :
  let w1 := snd (ai_explain_safety true (quota_request "429 quota exceeded" 100 101) fresh_world) in
  _ai_cooldown_until (ai w1) = (101 + Qmin 60 _ai_backoff_max)%Q /\
  _ai_backoff_sec (ai w1) = Qmin (60 * 2) _ai_backoff_max /\
  forall (req2 : Request) (msg2 : str),
    retry_delay_digits (u "429 quota exceeded") = None ->
    ~ (now req2 < _ai_cooldown_until (ai w1))%Q ->
    generate_content req2 (full_prompt (text req2) (lang req2)) = Raises msg2 ->
    is_quota_error msg2 = true ->
    retry_delay_digits msg2 = None ->
    let w2 := snd (ai_explain_safety true req2 w1) in
    (_ai_cooldown_until (ai w2) - now_failed req2 ==
     Qmin (2 * (_ai_cooldown_until (ai w1) - 101)) _ai_backoff_max)%Q.
Proof.
  apply (quota_failure_sets_cooldown_and_doubles_backoff interpreter_tables
           (quota_request "429 quota exceeded" 100 101) fresh_world (u "429 quota exceeded")).
  - vm_compute. discriminate.
  - reflexivity.
  - vm_compute. reflexivity.
Defined.

(** C4: every call returns, whatever the remote generator does, and what it
    returns is a string that is not empty (never an exception, never [None]). *)
Theorem explain_always_returns_a_tip
    (U : UnicodeData) (available : bool) (req : Request) (w : World) :
  exists tip : str,
    fst (ai_explain_safety available req w) = Returns (Some tip) /\ tip <> [].
Proof.
  unfold ai_explain_safety.
  destruct (negb available || Qlt_bool (now req) (_ai_cooldown_until (ai w))).
  - eexists. split; [reflexivity | apply local_fallback_tip_nonempty].
  - destruct (_call req) as [[|c out]|msg]; eexists; (split; [reflexivity|]);
      try apply local_fallback_tip_nonempty.
    discriminate.
Qed.

(** C5: when the generator is disabled or the clock is before
    [_ai_cooldown_until], the call returns the local fallback tip of the
    language and leaves the world as it was: no prompt is sent and the shared
    state is not touched. *)
Theorem no_remote_call_when_disabled_or_cooling
    (U : UnicodeData) (available : bool) (req : Request) (w : World) :
  available = false \/ (now req < _ai_cooldown_until (ai w))%Q ->
  ai_explain_safety available req w =
    (Returns (Some (_local_fallback_tip (lang req))), w).
Proof.
  intros H. unfold ai_explain_safety.
  assert (E : negb available || Qlt_bool (now req) (_ai_cooldown_until (ai w)) = true).
  { destruct H as [->|H]; [reflexivity|].
    apply Qlt_bool_iff in H. rewrite H. apply orb_true_r. }
  rewrite E. reflexivity.
Qed.

Lemma no_remote_call_when_disabled_or_cooling_witness :
  ai_explain_safety true (quota_request "unused" 10 11)
    {| ai := {| _ai_cooldown_until := 30; _ai_backoff_sec := 120 |}; sent := [] |} =
  (Returns (Some tip_en),
   {| ai := {| _ai_cooldown_until := 30; _ai_backoff_sec := 120 |}; sent := [] |}).
Proof.
  apply (no_remote_call_when_disabled_or_cooling interpreter_tables true
           (quota_request "unused" 10 11)).
  right. vm_compute. reflexivity.
Defined.

(** C6: when the remote call succeeds, or fails with an error that is not a
    quota error by the test of the source (the text does not contain "429"
    and its lower-cased form does not contain "quota"), the call leaves
    [_ai_cooldown_until] and [_ai_backoff_sec] as they were. *)
Theorem state_unchanged_unless_quota
    (U : UnicodeData) (available : bool) (req : Request) (w : World) :
  (forall msg, generate_content req (full_prompt (text req) (lang req)) = Raises msg ->
     contains msg (u "429") = false /\ contains (lower msg) (u "quota") = false) ->
  ai (snd (ai_explain_safety available req w)) = ai w.
Proof.
  intros H. unfold ai_explain_safety.
  destruct (negb available || Qlt_bool (now req) (_ai_cooldown_until (ai w))); [reflexivity|].
  unfold _call.
  destruct (generate_content req (full_prompt (text req) (lang req))) as [resp|msg]; [reflexivity|].
  cbn [bind]. unfold is_quota_error.
  destruct (H msg eq_refl) as [-> ->]. reflexivity.
Qed.

Lemma state_unchanged_unless_quota_witness :
  ai (snd (ai_explain_safety true (quota_request "connection reset" 100 101) fresh_world)) =
  ai fresh_world.
Proof.
  apply (state_unchanged_unless_quota interpreter_tables).
  intros msg H. injection H as <-. split; vm_compute; reflexivity.
Defined.

(** * Further properties of the normaliser and of the detectors *)

Section NormalizedText.
Context {U : UnicodeData} {L : UnicodeLaws U}.

Lemma normalize_twice text : _normalize (_normalize text) = _normalize text.
Proof.
  unfold _normalize at 1. rewrite unfolded_normalize.
  unfold _normalize, translate. rewrite map_map.
  apply map_ext. intros c. apply fold_idempotent.
Qed.

Lemma normalize_lower text : _normalize (lower text) = _normalize text.
Proof. unfold _normalize, unfolded. rewrite lower_idempotent. reflexivity. Qed.

Lemma single_spaced_only_space s : forall b c,
  single_spaced b s = true -> In c s -> isspace c = true -> c = SPACE.
Proof.
  induction s as [|x s IH]; intros b c H Hin Hc; [destruct Hin|].
  simpl in H. destruct Hin as [->|Hin].
  - rewrite Hc in H. apply andb_prop in H as [H _]. apply andb_prop in H as [H _].
    apply N.eqb_eq in H. exact H.
  - destruct (isspace x); [apply andb_prop in H as [_ H]|]; eauto.
Qed.

Lemma single_spaced_no_double s : forall b,
  single_spaced b s = true -> contains s [SPACE; SPACE] = false.
Proof.
  induction s as [|x s IH]; intros b H; [reflexivity|].
  cbn [contains is_prefix]. simpl in H.
  destruct (isspace x) eqn:Hx.
  - apply andb_prop in H as [H H2]. rewrite (IH _ H2), orb_false_r.
    destruct s as [|y s]; [apply andb_false_r|].
    destruct (N.eqb_spec SPACE y) as [<-|]; [|rewrite andb_false_r; reflexivity].
    simpl in H2. rewrite space_isspace in H2. simpl in H2. discriminate H2.
  - rewrite (IH _ H), orb_false_r.
    destruct (N.eqb_spec SPACE x) as [<-|]; [|reflexivity].
    rewrite space_isspace in Hx. discriminate Hx.
Qed.

Lemma rstrip_length s : (length (rstrip s) <= length s)%nat.
Proof.
  induction s as [|c s IH]; simpl; [lia|].
  destruct (rstrip s); [destruct (isspace c)|]; simpl in *; lia.
Qed.

Lemma rstrip_app_space a c : isspace c = true -> rstrip (a ++ [c]) = rstrip a.
Proof.
  intros Hc. induction a as [|x a IH]; simpl; [rewrite Hc; reflexivity|].
  rewrite IH. reflexivity.
Qed.

Lemma rstrip_fixed_end s a c : rstrip s = s -> s = a ++ [c] -> isspace c = false.
Proof.
  intros Hs ->. apply not_true_is_false. intros Hc.
  rewrite (rstrip_app_space a c Hc) in Hs.
  pose proof (rstrip_length a) as Hl. rewrite Hs, length_app in Hl. simpl in Hl. lia.
Qed.

Lemma strip_fixed_ends s :
  strip s = s ->
  (forall c rest, s = c :: rest -> isspace c = false) /\
  (forall a c, s = a ++ [c] -> isspace c = false).
Proof.
  intros Hs. split.
  - intros c rest E.
    pose proof (rstrip_starts_clean _ (lstrip_starts_clean s)) as H.
    fold (strip s) in H. rewrite Hs, E in H. exact H.
  - intros a c E. apply (rstrip_fixed_end s a c); [|exact E].
    rewrite <- Hs at 1. unfold strip. rewrite rstrip_idempotent. exact Hs.
Qed.

End NormalizedText.

(** X1: the normalised text holds none of the twelve Latin letters that the
    fold replaces. *)
Theorem normalize_drops_folded_latin (U : UnicodeData) (text : str) (c : char) :
  In c (u "aeopcxykmhbt") -> ~ In c (_normalize text).
Proof.
  intros Hc Hin.
  pose proof (normalize_no_folded_letter text) as Hall.
  rewrite List.Forall_forall in Hall. specialize (Hall c Hin).
  vm_compute in Hc.
  repeat (destruct Hc as [<-|Hc]; [vm_compute in Hall; discriminate Hall|]).
  destruct Hc.
Qed.

Lemma normalize_drops_folded_latin_witness :
  In (ch "t") (u "aeopcxykmhbt") /\ ~ In (ch "t") (_normalize (u "Transfer")).
Proof.
  split; [vm_compute; do 11 right; left; reflexivity|].
  apply (normalize_drops_folded_latin interpreter_tables (u "Transfer") (ch "t")).
  vm_compute. do 11 right. left. reflexivity.
Defined.

(** X2: the normalised text is made of word characters and single spaces, with
    no space at either end. *)
Theorem normalize_words_single_spaced (U : UnicodeData) (L : UnicodeLaws U) (text : str) :
  let t := _normalize text in
  Forall (fun c => is_word c = true \/ c = SPACE) t /\
  contains t [SPACE; SPACE] = false /\
  (forall rest, t <> SPACE :: rest) /\
  (forall start, t <> start ++ [SPACE]).
Proof.
  cbv zeta.
  pose proof (unfolded_no_punctuation (_normalize text)) as Hp.
  pose proof (unfolded_single_spaced (_normalize text)) as Hs.
  pose proof (unfolded_stripped (_normalize text)) as Ht.
  rewrite unfolded_normalize in Hp, Hs, Ht.
  destruct (strip_fixed_ends _ Ht) as [Hhead Hlast].
  split; [|split; [|split]].
  - apply List.Forall_forall. intros c Hc.
    rewrite List.Forall_forall in Hp. specialize (Hp c Hc).
    unfold not_word_nor_space in Hp. apply negb_false_iff, orb_prop in Hp as [Hw|Hw];
      [left; exact Hw | right; eapply single_spaced_only_space; eauto].
  - eapply single_spaced_no_double, Hs.
  - intros rest E. specialize (Hhead _ _ E). rewrite space_isspace in Hhead. discriminate.
  - intros start E. specialize (Hlast _ _ E). rewrite space_isspace in Hlast. discriminate.
Qed.

Lemma normalize_words_single_spaced_witness :
  let t := _normalize (u "  Hello,   WORLD!! ") in
  Forall (fun c => is_word c = true \/ c = SPACE) t /\
  contains t [SPACE; SPACE] = false /\
  (forall rest, t <> SPACE :: rest) /\
  (forall start, t <> start ++ [SPACE]).
Proof.
  apply (normalize_words_single_spaced interpreter_tables interpreter_tables_laws).
Defined.

(** X3: the verdict does not change when the message is normalised or
    lower-cased first. *)
Theorem verdict_of_normalized_text (U : UnicodeData) (L : UnicodeLaws U)
    (KEYWORDS : list str) (text : str) :
  looks_suspicious KEYWORDS (_normalize text) = looks_suspicious KEYWORDS text /\
  looks_suspicious KEYWORDS (lower text) = looks_suspicious KEYWORDS text.
Proof.
  unfold looks_suspicious. rewrite normalize_twice, normalize_lower. split; reflexivity.
Qed.

Lemma verdict_of_normalized_text_witness :
  looks_suspicious fallback_keywords (_normalize (u "Срочно ПЕРЕВЕДИ деньги")) =
    looks_suspicious fallback_keywords (u "Срочно ПЕРЕВЕДИ деньги") /\
  looks_suspicious fallback_keywords (lower (u "Срочно ПЕРЕВЕДИ деньги")) =
    looks_suspicious fallback_keywords (u "Срочно ПЕРЕВЕДИ деньги").
Proof.
  apply (verdict_of_normalized_text interpreter_tables interpreter_tables_laws).
Defined.

Section DetectorEdges.
Context {U : UnicodeData}.

Lemma whole_word_not_in_empty w : re_search (whole_word w) [] = false.
Proof. reflexivity. Qed.

Lemma keyword_hits_empty_text KEYWORDS : keyword_hits KEYWORDS [] = [].
Proof.
  unfold keyword_hits. induction KEYWORDS as [|kw K IH]; [reflexivity|].
  simpl. rewrite whole_word_not_in_empty, andb_false_r. exact IH.
Qed.

Lemma keyword_hits_sublist KEYWORDS t : sublist (keyword_hits KEYWORDS t) KEYWORDS.
Proof.
  unfold keyword_hits. induction KEYWORDS as [|kw K IH]; simpl; [constructor|].
  destruct (negb (str_eqb kw []) && re_search (whole_word kw) t); constructor; exact IH.
Qed.

Lemma keyword_hits_In KEYWORDS t kw :
  In kw (keyword_hits KEYWORDS t) <->
  In kw KEYWORDS /\ kw <> [] /\ re_search (whole_word kw) t = true.
Proof.
  unfold keyword_hits. rewrite filter_In, andb_true_iff, negb_true_iff.
  unfold str_eqb. rewrite bool_decide_eq_false. tauto.
Qed.

End DetectorEdges.

(** X4: a message of which the normaliser leaves nothing gets a false verdict
    and no reason, whatever the keywords. *)
Theorem nothing_left_nothing_found (U : UnicodeData) (KEYWORDS : list str) (text : str) :
  _normalize text = [] -> looks_suspicious KEYWORDS text = (false, []).
Proof.
  intros H. unfold looks_suspicious. rewrite H, keyword_hits_empty_text. reflexivity.
Qed.

Lemma nothing_left_nothing_found_witness :
  looks_suspicious fallback_keywords (u " ?!... -- ") = (false, []).
Proof.
  apply (nothing_left_nothing_found interpreter_tables).
  vm_compute. reflexivity.
Defined.

(** X5: the keywords found keep the order of the keyword list, none of them is
    empty, and each occurs in the normalised text. *)
Theorem keyword_hits_in_list_order (U : UnicodeData) (KEYWORDS : list str) (t : str) :
  sublist (keyword_hits KEYWORDS t) KEYWORDS /\
  Forall (fun kw => kw <> [] /\ contains t kw = true) (keyword_hits KEYWORDS t).
Proof.
  split; [apply keyword_hits_sublist|].
  apply List.Forall_forall. intros kw Hkw.
  apply keyword_hits_In in Hkw as (_ & Hne & Hs).
  split; [exact Hne|]. eapply search_whole_word_contains, Hs.
Qed.

Lemma existsb_alive {U : UnicodeData} text l :
  existsb (fun w => re_search (whole_word w) (_normalize text)) l =
  existsb (fun w => re_search (whole_word w) (_normalize text))
    (List.filter (fun w => negb (has_folded_letter w)) l).
Proof.
  induction l as [|w l IH]; [reflexivity|]. simpl.
  destruct (has_folded_letter w) eqn:Hw; simpl.
  - rewrite (folded_word_never_matches text w Hw). exact IH.
  - rewrite IH. reflexivity.
Qed.

(** X6: no keyword with a folded Latin letter is ever found, and the action
    and reward detector fires on the surviving words of its lists only. *)
Theorem folded_words_are_dead (U : UnicodeData) (KEYWORDS : list str) (text : str) :
  let t := _normalize text in
  (forall kw, In kw (keyword_hits KEYWORDS t) -> has_folded_letter kw = false) /\
  has_action_reward t =
    existsb (fun a => re_search (whole_word a) t)
      (map u ["кликни"; "перейди"; "введи"; "подтверди"; "переведи"; "оплати"]%string)
    && existsb (fun r => re_search (whole_word r) t)
      (map u ["выиграл"; "приз"; "подарок"; "лотерея"; "грант"; "win"; "деньги"; "доход";
              "инвестиция"]%string).
Proof.
  cbv zeta. split.
  - intros kw Hkw. apply keyword_hits_In in Hkw as (_ & _ & Hs).
    apply not_true_is_false. intros Hf.
    rewrite (folded_word_never_matches text kw Hf) in Hs. discriminate Hs.
  - unfold has_action_reward.
    rewrite (existsb_alive text actions), (existsb_alive text rewards).
    f_equal; apply f_equal; vm_compute; reflexivity.
Qed.

(** X7: there are at most four reasons and none is repeated. *)
Theorem at_most_one_reason_per_detector (U : UnicodeData) (KEYWORDS : list str) (text : str) :
  let reasons := snd (looks_suspicious KEYWORDS text) in
  (length reasons <= 4)%nat /\ NoDup reasons.
Proof.
  cbv zeta. rewrite looks_suspicious_reasons. unfold reasons_in_order.
  destruct (keyword_hits KEYWORDS (_normalize text)) as [|kw hits],
    (has_link_marker (_normalize text)), (has_money (_normalize text)),
    (has_action_reward (_normalize text)); simpl; (split; [lia|]);
    repeat (apply NoDup_cons; split; [rewrite ?list_elem_of_In; simpl; intuition discriminate|]);
    apply NoDup_nil; exact I.
Qed.

Section WholeWords.
Context {U : UnicodeData}.

Lemma last_or_cons prev c s : last_or prev (c :: s) = last_or (Some c) s.
Proof.
  unfold last_or. destruct s as [|d s]; [reflexivity|]. rewrite last_cons_cons.
  destruct (last (d :: s)) eqn:E; [reflexivity|]. apply last_None in E. discriminate E.
Qed.

Lemma last_or_app prev a w : last_or (last_or prev a) w = last_or prev (a ++ w).
Proof.
  revert prev. induction a as [|c a IH]; intros prev; [reflexivity|].
  rewrite <- app_comm_cons, !last_or_cons. apply IH.
Qed.

Lemma last_or_None s : last_or None s = last s.
Proof. unfold last_or. destruct (last s); reflexivity. Qed.

Lemma rmatch_RStr_iff w : forall prev s k,
  rmatch (RStr w) prev s k = true <-> exists b, s = w ++ b /\ k (last_or prev w) b = true.
Proof.
  induction w as [|c w IH]; intros prev s k.
  - simpl. split; [eauto | intros (b & -> & H); exact H].
  - cbn [RStr rmatch]. destruct s as [|x s].
    + split; [discriminate | intros (b & H & _); discriminate H].
    + rewrite andb_true_iff, N.eqb_eq, IH, last_or_cons. split.
      * intros (-> & b & -> & H). eauto.
      * intros (b & H & Hk). injection H as -> ->. eauto.
Qed.

Lemma search_from_iff r s : forall prev,
  search_from r prev s = true <->
  exists a b, s = a ++ b /\ rmatch r (last_or prev a) b (fun _ _ => true) = true.
Proof.
  induction s as [|x s IH]; intros prev; cbn [search_from]; rewrite orb_true_iff.
  - split.
    + intros [H|H]; [exists [], []; auto | discriminate H].
    + intros (a & b & E & H). symmetry in E. apply app_eq_nil in E as [-> ->]. left; exact H.
  - rewrite IH. split.
    + intros [H|(a & b & -> & H)]; [exists [], (x :: s); auto|].
      exists (x :: a), b. rewrite last_or_cons. auto.
    + intros ([|y a] & b & E & H); [left; simpl in E; subst b; exact H|].
      injection E as -> ->. right. exists a, b. rewrite last_or_cons in H. auto.
Qed.

End WholeWords.

(** X8: a word is found exactly when it occurs in the text with a word
    boundary on each side. *)
Theorem whole_word_found_iff (U : UnicodeData) (w t : str) :
  re_search (whole_word w) t = true <->
  exists a b, t = a ++ w ++ b /\
    word_boundary (last a) (w ++ b) = true /\
    word_boundary (last (a ++ w)) b = true.
Proof.
  unfold re_search. rewrite search_from_iff. split.
  - intros (a & s & -> & H). cbn [whole_word rmatch] in H.
    apply andb_prop in H as [H1 H]. apply rmatch_RStr_iff in H as (b & -> & H).
    rewrite andb_true_r, last_or_app in H. rewrite last_or_None in H1, H.
    exists a, b. auto.
  - intros (a & b & -> & H1 & H2). exists a, (w ++ b). split; [reflexivity|].
    cbn [whole_word rmatch]. rewrite last_or_None, H1.
    apply rmatch_RStr_iff. exists b. split; [reflexivity|].
    rewrite <- (last_or_None a), last_or_app, last_or_None, andb_true_r. exact H2.
Qed.

(** * Further properties of the arbiter *)

Section ArbiterSteps.
Context {U : UnicodeData}.

(** The three things a call can do to the world. *)
Lemma ai_explain_safety_cases available req w :
  let prompt := full_prompt (text req) (lang req) in
  let w' := snd (ai_explain_safety available req w) in
  w' = w \/
  w' = {| ai := ai w; sent := sent w ++ [prompt] |} \/
  exists msg,
    generate_content req prompt = Raises msg /\ is_quota_error msg = true /\
    w' = {| ai := {| _ai_cooldown_until :=
                       (now_failed req +
                        Qmin (match retry_delay_digits msg with
                              | Some ds => float_of_digits ds
                              | None => _ai_backoff_sec (ai w)
                              end) _ai_backoff_max)%Q;
                     _ai_backoff_sec := Qmin (_ai_backoff_sec (ai w) * 2) _ai_backoff_max |};
            sent := sent w ++ [prompt] |}.
Proof.
  cbv zeta. unfold ai_explain_safety.
  destruct (negb available || Qlt_bool (now req) (_ai_cooldown_until (ai w)));
    [left; reflexivity|].
  unfold _call.
  destruct (generate_content req (full_prompt (text req) (lang req))) as [reply|msg] eqn:E;
    cbn [bind snd]; [right; left; reflexivity|].
  destruct (is_quota_error msg) eqn:Hq; [|right; left; reflexivity].
  right; right. exists msg. auto.
Qed.

Lemma float_of_digits_nonneg ds : (0 <= float_of_digits ds)%Q.
Proof.
  unfold float_of_digits. change 0%Q with (inject_Z 0).
  rewrite <- Zle_Qle. apply N2Z.is_nonneg.
Qed.

Lemma strip_blank s : strip s = [] <-> Forall (fun c => isspace c = true) s.
Proof.
  unfold strip. induction s as [|c s IH]; simpl.
  - split; [constructor | reflexivity].
  - destruct (isspace c) eqn:Hc.
    + rewrite IH. split; [intros H; constructor; assumption | intros H; inversion H; assumption].
    + split.
      * simpl. destruct (rstrip s); [rewrite Hc|]; discriminate.
      * intros H. inversion H; congruence.
Qed.

End ArbiterSteps.

(** X9: over any sequence of calls the backoff never decreases and never
    exceeds the cap. *)
Theorem backoff_only_grows_up_to_the_cap
    (U : UnicodeData) (available : bool) (reqs : list Request) (w : World) :
  (0 <= _ai_backoff_sec (ai w) <= _ai_backoff_max)%Q ->
  let w' := snd (serve available reqs w) in
  (_ai_backoff_sec (ai w) <= _ai_backoff_sec (ai w') <= _ai_backoff_max)%Q.
Proof.
  cbv zeta. revert w. induction reqs as [|req reqs IH]; intros w Hw; simpl.
  - split; [apply Qle_refl | apply Hw].
  - destruct (ai_explain_safety available req w) as [r w1] eqn:E1.
    destruct (serve available reqs w1) as [rs w2] eqn:E2. cbn [snd].
    assert (H1 : (_ai_backoff_sec (ai w) <= _ai_backoff_sec (ai w1) <= _ai_backoff_max)%Q).
    { pose proof (ai_explain_safety_cases available req w) as H.
      cbv zeta in H. rewrite E1 in H. cbn [snd] in H. unfold _ai_backoff_max in *.
      destruct H as [->|[->|(msg & _ & _ & ->)]];
        cbn [ai _ai_backoff_sec]; try (split; [apply Qle_refl | apply Hw]).
      destruct (Q.min_spec (_ai_backoff_sec (ai w) * 2) 3600) as [[? Em]|[? Em]];
        rewrite Em; lra. }
    specialize (IH w1). rewrite E2 in IH. cbn [snd] in IH.
    assert (H0 : (0 <= _ai_backoff_sec (ai w1) <= _ai_backoff_max)%Q) by lra.
    specialize (IH H0). lra.
Qed.

Lemma backoff_only_grows_up_to_the_cap_witness :
  let w' := snd (serve true [quota_request "quota" 100 101; quota_request "429" 200 201]
                   fresh_world) in
  (60 <= _ai_backoff_sec (ai w') <= _ai_backoff_max)%Q.
Proof.
  apply (backoff_only_grows_up_to_the_cap interpreter_tables true
           [quota_request "quota" 100 101; quota_request "429" 200 201] fresh_world).
  vm_compute. split; discriminate.
Defined.

(** X10: a call either leaves the shared state alone or sets the cooldown
    between the time of the failure and 3600 seconds later. *)
Theorem cooldown_window_bounded
    (U : UnicodeData) (available : bool) (req : Request) (w : World) :
  (0 <= _ai_backoff_sec (ai w))%Q ->
  let w' := snd (ai_explain_safety available req w) in
  ai w' = ai w \/
  (now_failed req <= _ai_cooldown_until (ai w') <= now_failed req + _ai_backoff_max)%Q.
Proof.
  intros Hb. cbv zeta.
  destruct (ai_explain_safety_cases available req w) as [->|[->|(msg & _ & _ & ->)]];
    [left; reflexivity | left; reflexivity | right].
  cbn [ai _ai_cooldown_until]. unfold _ai_backoff_max.
  assert (Hd : (0 <= match retry_delay_digits msg with
                     | Some ds => float_of_digits ds
                     | None => _ai_backoff_sec (ai w)
                     end)%Q)
    by (destruct (retry_delay_digits msg); [apply float_of_digits_nonneg | exact Hb]).
  destruct (Q.min_spec (match retry_delay_digits msg with
                        | Some ds => float_of_digits ds
                        | None => _ai_backoff_sec (ai w)
                        end) 3600) as [[? Em]|[? Em]]; rewrite Em; lra.
Qed.

Lemma cooldown_window_bounded_witness :
  let w' := snd (ai_explain_safety true (quota_request "429 retry_delay 99999" 100 101)
                   fresh_world) in
  ai w' = ai fresh_world \/
  (101 <= _ai_cooldown_until (ai w') <= 101 + _ai_backoff_max)%Q.
Proof.
  apply (cooldown_window_bounded interpreter_tables true
           (quota_request "429 retry_delay 99999" 100 101) fresh_world).
  vm_compute. discriminate.
Defined.

(** X11: a sequence of calls answers every request and sends at most one
    prompt for each, in the order of the requests. *)
Theorem at_most_one_prompt_per_call
    (U : UnicodeData) (available : bool) (reqs : list Request) (w : World) :
  let (replies, w') := serve available reqs w in
  length replies = length reqs /\
  exists new, sent w' = sent w ++ new /\
    sublist new (map (fun req => full_prompt (text req) (lang req)) reqs).
Proof.
  revert w. induction reqs as [|req reqs IH]; intros w; simpl.
  - split; [reflexivity|]. exists []. rewrite app_nil_r. split; [reflexivity | constructor].
  - destruct (ai_explain_safety available req w) as [r w1] eqn:E1.
    specialize (IH w1). destruct (serve available reqs w1) as [rs w2].
    destruct IH as (Hlen & new & Hsent & Hsub).
    split; [simpl; rewrite Hlen; reflexivity|].
    pose proof (ai_explain_safety_cases available req w) as H.
    cbv zeta in H. rewrite E1 in H. cbn [snd] in H.
    destruct H as [->|[->|(msg & _ & _ & ->)]]; cbn [sent] in Hsent.
    + exists new. split; [exact Hsent | apply sublist_cons, Hsub].
    + exists (full_prompt (text req) (lang req) :: new).
      rewrite Hsent, <- app_assoc. split; [reflexivity | apply sublist_skip, Hsub].
    + exists (full_prompt (text req) (lang req) :: new).
      rewrite Hsent, <- app_assoc. split; [reflexivity | apply sublist_skip, Hsub].
Qed.

(** X12: a reply of the remote generator is stripped and cut to 500
    characters, and a blank reply is replaced by the local tip. *)
Theorem reply_is_stripped_and_cut
    (U : UnicodeData) (req : Request) (w : World) (reply : option str) :
  ~ (now req < _ai_cooldown_until (ai w))%Q ->
  generate_content req (full_prompt (text req) (lang req)) = Returns reply ->
  let body := default [] reply in
  exists tip,
    ai_explain_safety true req w =
      (Returns (Some tip),
       {| ai := ai w; sent := sent w ++ [full_prompt (text req) (lang req)] |}) /\
    (Forall (fun c => isspace c = true) body -> tip = _local_fallback_tip (lang req)) /\
    (~ Forall (fun c => isspace c = true) body ->
       tip = take 500 (strip body) /\ (0 < length tip <= 500)%nat).
Proof.
  intros Hgate Hreply. cbv zeta.
  rewrite (ai_explain_safety_attempt req w Hgate). unfold _call. rewrite Hreply.
  cbn [bind]. change (match reply with Some t => t | None => [] end) with (default [] reply).
  cbv zeta. destruct (strip (default [] reply)) as [|c out] eqn:E.
  - eexists. split; [reflexivity|]. apply strip_blank in E. split; [reflexivity | tauto].
  - eexists. split; [reflexivity|]. split.
    + intros H. apply strip_blank in H. congruence.
    + intros _. split; [reflexivity|]. rewrite length_take. cbn [length]. lia.
Qed.

Lemma reply_is_stripped_and_cut_witness :
  let body := default [] (Some sample_reply) in
  exists tip,
    ai_explain_safety true answering_request fresh_world =
      (Returns (Some tip),
       {| ai := ai fresh_world;
          sent := sent fresh_world ++
                  [full_prompt (text answering_request) (lang answering_request)] |}) /\
    (Forall (fun c => isspace c = true) body ->
       tip = _local_fallback_tip (lang answering_request)) /\
    (~ Forall (fun c => isspace c = true) body ->
       tip = take 500 (strip body) /\ (0 < length tip <= 500)%nat).
Proof.
  apply (reply_is_stripped_and_cut interpreter_tables answering_request fresh_world
           (Some sample_reply)).
  - vm_compute. discriminate.
  - reflexivity.
Defined.

(** X13: after a quota failure, calls before the end of the cooldown return
    the local tip without a prompt, and later calls send one. *)
Theorem cooldown_is_honoured
    (U : UnicodeData) (req req2 : Request) (w : World) (msg : str) :
  ~ (now req < _ai_cooldown_until (ai w))%Q ->
  generate_content req (full_prompt (text req) (lang req)) = Raises msg ->
  is_quota_error msg = true ->
  let w1 := snd (ai_explain_safety true req w) in
  let until :=
    (now_failed req +
     Qmin (match retry_delay_digits msg with
           | Some ds => float_of_digits ds
           | None => _ai_backoff_sec (ai w)
           end) _ai_backoff_max)%Q in
  ((now req2 < until)%Q ->
     ai_explain_safety true req2 w1 = (Returns (Some (_local_fallback_tip (lang req2))), w1)) /\
  (~ (now req2 < until)%Q ->
     sent (snd (ai_explain_safety true req2 w1)) =
       sent w1 ++ [full_prompt (text req2) (lang req2)]).
Proof.
  intros Hgate Hraise Hquota w1 until.
  assert (Hw1 : _ai_cooldown_until (ai w1) = until).
  { unfold w1. rewrite (ai_explain_safety_attempt req w Hgate), (call_raises req msg Hraise).
    cbv zeta. rewrite Hquota. reflexivity. }
  split; intros H.
  - unfold ai_explain_safety. rewrite Hw1.
    apply Qlt_bool_iff in H. rewrite H. reflexivity.
  - rewrite <- Hw1 in H. rewrite (ai_explain_safety_attempt req2 w1 H). cbv zeta.
    destruct (_call req2) as [out|msg2]; [reflexivity|].
    destruct (is_quota_error msg2); reflexivity.
Qed.

Lemma cooldown_is_honoured_witness :
  let req := quota_request "429 quota, retry_delay { seconds: 30 }" 100 100 in
  let w1 := snd (ai_explain_safety true req fresh_world) in
  let until := (100 + Qmin (float_of_digits [3; 0]%N) _ai_backoff_max)%Q in
  ((now (quota_request "later" 110 110) < until)%Q ->
     ai_explain_safety true (quota_request "later" 110 110) w1 =
       (Returns (Some (_local_fallback_tip (lang (quota_request "later" 110 110)))), w1)) /\
  (~ (now (quota_request "later" 110 110) < until)%Q ->
     sent (snd (ai_explain_safety true (quota_request "later" 110 110) w1)) =
       sent w1 ++ [full_prompt (text (quota_request "later" 110 110))
                     (lang (quota_request "later" 110 110))]).
Proof.
  apply (cooldown_is_honoured interpreter_tables
           (quota_request "429 quota, retry_delay { seconds: 30 }" 100 100)
           (quota_request "later" 110 110) fresh_world
           (u "429 quota, retry_delay { seconds: 30 }")).
  - vm_compute. discriminate.
  - reflexivity.
  - vm_compute. reflexivity.
Defined.

(** * The language of a message and the handlers *)

Lemma detect_lang_ru sample :
  detect_lang sample = u "ru" <-> Exists (fun ch => is_cyrillic ch = true) sample.
Proof.
  induction sample as [|ch rest IH]; simpl.
  - split; [discriminate | intros H; inversion H].
  - destruct (is_cyrillic ch) eqn:Hc.
    + split; [intros _; left; exact Hc | reflexivity].
    + rewrite IH. split; [intros H; right; exact H|].
      intros H. inversion H; subst; [congruence | assumption].
Qed.

Lemma detect_lang_en sample :
  detect_lang sample = u "en" <-> Forall (fun ch => is_cyrillic ch = false) sample.
Proof.
  induction sample as [|ch rest IH]; simpl.
  - split; [constructor | reflexivity].
  - destruct (is_cyrillic ch) eqn:Hc.
    + split; [discriminate | intros H; inversion H; congruence].
    + rewrite IH. split; [intros H; constructor; assumption | intros H; inversion H; assumption].
Qed.

Lemma is_cyrillic_spec ch : is_cyrillic ch = true <-> 0x400 <= ch <= 0x4FF.
Proof. unfold is_cyrillic. rewrite andb_true_iff, !N.leb_le. tauto. Qed.

Lemma is_cyrillic_false ch : is_cyrillic ch = false <-> ch < 0x400 \/ 0x4FF < ch.
Proof. unfold is_cyrillic. rewrite andb_false_iff, !N.leb_gt. tauto. Qed.

(** X15: the language is Russian exactly when the sample has a character of
    the Cyrillic block, English otherwise, and a concatenation is Russian when
    one part is. *)
Theorem detect_lang_looks_for_cyrillic (sample more : str) :
  (detect_lang sample = u "ru" <-> exists ch, In ch sample /\ 0x400 <= ch <= 0x4FF) /\
  (detect_lang sample = u "en" <-> forall ch, In ch sample -> ch < 0x400 \/ 0x4FF < ch) /\
  detect_lang (sample ++ more) =
    (if str_eqb (detect_lang sample) (u "ru") then u "ru" else detect_lang more).
Proof.
  split; [|split].
  - rewrite detect_lang_ru, List.Exists_exists.
    split; intros (ch & Hin & H); exists ch; (split; [exact Hin|]); apply is_cyrillic_spec, H.
  - rewrite detect_lang_en, List.Forall_forall.
    split; intros H ch Hin; apply is_cyrillic_false, H, Hin.
  - induction sample as [|ch rest IH]; simpl; [reflexivity|].
    destruct (is_cyrillic ch); [reflexivity | exact IH].
Qed.

(** X16: for a language code without Cyrillic characters, such as any code in
    Latin letters, the start command greets in English. *)
Theorem cmd_start_greets_in_english (message : Message) :
  (forall ch, In ch (default [] (language_code (from_user message))) -> ch < 0x400) ->
  cmd_start message =
    [MessageAnswer start_en (Some (u "Markdown")) (Some (inline_kb (u "en")))].
Proof.
  intros H. unfold cmd_start.
  assert (E : detect_lang (default [] (language_code (from_user message))) = u "en").
  { apply detect_lang_en, List.Forall_forall. intros ch Hin.
    apply is_cyrillic_false. left. apply H, Hin. }
  rewrite E. reflexivity.
Qed.

Lemma cmd_start_greets_in_english_witness :
  cmd_start start_message =
    [MessageAnswer start_en (Some (u "Markdown")) (Some (inline_kb (u "en")))].
Proof.
  apply (cmd_start_greets_in_english start_message).
  intros ch Hin. vm_compute in Hin. destruct Hin as [<-|[<-|[]]]; reflexivity.
Defined.

Section HandlerFacts.
Context {U : UnicodeData}.
Variable KEYWORDS : list str.
Variable available : bool.

Lemma ai_explain_safety_tip req w :
  exists tip, fst (ai_explain_safety available req w) = Returns (Some tip) /\ tip <> [].
Proof.
  unfold ai_explain_safety.
  destruct (negb available || Qlt_bool (now req) (_ai_cooldown_until (ai w))).
  - eexists. split; [reflexivity | apply local_fallback_tip_nonempty].
  - destruct (_call req) as [[|c out]|msg]; eexists; (split; [reflexivity|]);
      try apply local_fallback_tip_nonempty.
    discriminate.
Qed.

Lemma analyze_memory env message bot :
  LAST_MSGS (snd (analyze KEYWORDS available env message bot)) =
  <[id (from_user message) := default [] (message_text message)]> (LAST_MSGS bot).
Proof.
  unfold analyze.
  destruct (looks_suspicious KEYWORDS (default [] (message_text message))) as [[|] reasons];
    destruct (str_eqb (detect_lang (default [] (message_text message))) (u "ru"));
    try reflexivity;
    match goal with |- context [ai_explain_safety ?a ?r ?w] =>
      destruct (ai_explain_safety a r w) as [[tip|e] w'] end; reflexivity.
Qed.

End HandlerFacts.

(** X17: handling a message records its text for its sender and leaves the
    entries of other users alone. *)
Theorem analyze_records_last_message
    (U : UnicodeData) (KEYWORDS : list str) (available : bool)
    (env : Remote) (message : Message) (bot : Bot) :
  let bot' := snd (analyze KEYWORDS available env message bot) in
  LAST_MSGS bot' !! id (from_user message) = Some (default [] (message_text message)) /\
  forall uid : Z, uid <> id (from_user message) -> LAST_MSGS bot' !! uid = LAST_MSGS bot !! uid.
Proof.
  cbv zeta. rewrite analyze_memory. split.
  - apply lookup_insert_eq.
  - intros uid Hne. apply lookup_insert_ne. congruence.
Qed.

(** X18: a message that is not found suspicious is answered with the fixed
    text, and the arbiter is not called. *)
Theorem analyze_clean_message_stays_local
    (U : UnicodeData) (KEYWORDS : list str) (available : bool)
    (env : Remote) (message : Message) (bot : Bot) :
  let txt := default [] (message_text message) in
  let lang := detect_lang txt in
  fst (looks_suspicious KEYWORDS txt) = false ->
  analyze KEYWORDS available env message bot =
    (Returns [MessageAnswer (if str_eqb lang (u "ru") then clean_ru else clean_en)
                (Some (u "Markdown")) (Some (inline_kb lang))],
     {| LAST_MSGS := <[id (from_user message) := txt]> (LAST_MSGS bot);
        world := world bot |}).
Proof.
  cbv zeta. intros H. unfold analyze.
  destruct (looks_suspicious KEYWORDS (default [] (message_text message))) as [s reasons].
  cbn [fst] in H. subst s.
  destruct (str_eqb (detect_lang (default [] (message_text message))) (u "ru")); reflexivity.
Qed.

Lemma analyze_clean_message_stays_local_witness :
  analyze fallback_keywords true silent_remote coffee_message empty_bot =
    (Returns [MessageAnswer
                (if str_eqb (detect_lang (default [] (message_text coffee_message))) (u "ru")
                 then clean_ru else clean_en)
                (Some (u "Markdown"))
                (Some (inline_kb (detect_lang (default [] (message_text coffee_message)))))],
     {| LAST_MSGS := <[id (from_user coffee_message)
                       := default [] (message_text coffee_message)]> (LAST_MSGS empty_bot);
        world := world empty_bot |}).
Proof.
  apply (analyze_clean_message_stays_local interpreter_tables fallback_keywords true
           silent_remote coffee_message empty_bot).
  vm_compute. reflexivity.
Defined.

(** X19: a suspicious message is answered with the warning, the reasons joined
    by semicolons and a tip that is never empty. *)
Theorem analyze_suspicious_message_reply
    (U : UnicodeData) (KEYWORDS : list str) (available : bool)
    (env : Remote) (message : Message) (bot : Bot) :
  let txt := default [] (message_text message) in
  let lang := detect_lang txt in
  let russian := str_eqb lang (u "ru") in
  fst (looks_suspicious KEYWORDS txt) = true ->
  exists tip, tip <> [] /\
    fst (analyze KEYWORDS available env message bot) =
      Returns [MessageAnswer
                 ((if russian then warning_ru else warning_en)
                  ++ (if russian then reason_label_ru else reason_label_en)
                  ++ join (u "; ") (snd (looks_suspicious KEYWORDS txt))
                  ++ ai_label ++ tip)
                 (Some (u "Markdown")) (Some (inline_kb lang))].
Proof.
  cbv zeta. intros H.
  pose proof (proj1 (looks_suspicious_verdict KEYWORDS _) H) as Hne.
  unfold analyze.
  destruct (looks_suspicious KEYWORDS (default [] (message_text message))) as [s reasons].
  cbn [fst snd] in H, Hne |- *. subst s.
  destruct reasons as [|r reasons]; [congruence|].
  set (txt := default [] (message_text message)).
  set (bot1 := {| LAST_MSGS := _; world := world bot |}).
  destruct (str_eqb (detect_lang txt) (u "ru")) eqn:El;
    match goal with |- context [ai_explain_safety ?a ?r ?w] =>
      destruct (ai_explain_safety_tip a r w) as (tip & Et & Htip);
      destruct (ai_explain_safety a r w) as [res w'] end;
    cbn [fst] in Et; subst res; exists tip; (split; [exact Htip|]);
    destruct tip as [|c tip]; [congruence| |congruence|];
    cbn [fst with_tip]; rewrite <- !app_assoc; reflexivity.
Qed.

Lemma analyze_suspicious_message_reply_witness :
  exists tip, tip <> [] /\
    fst (analyze fallback_keywords false silent_remote scam_message empty_bot) =
      Returns [MessageAnswer
                 ((if str_eqb (detect_lang (default [] (message_text scam_message))) (u "ru")
                   then warning_ru else warning_en)
                  ++ (if str_eqb (detect_lang (default [] (message_text scam_message))) (u "ru")
                      then reason_label_ru else reason_label_en)
                  ++ join (u "; ")
                       (snd (looks_suspicious fallback_keywords
                               (default [] (message_text scam_message))))
                  ++ ai_label ++ tip)
                 (Some (u "Markdown"))
                 (Some (inline_kb (detect_lang (default [] (message_text scam_message)))))].
Proof.
  apply (analyze_suspicious_message_reply interpreter_tables fallback_keywords false
           silent_remote scam_message empty_bot).
  vm_compute. reflexivity.
Defined.

(** X20: a callback that is not a request for help, or comes from a user
    without a recorded text, sends its answer without touching the bot's
    state. *)
Theorem callbacks_without_last_message_stay_local
    (U : UnicodeData) (available : bool) (env : Remote) (call : CallbackQuery) (bot : Bot) :
  call_data call <> u "help" \/
  LAST_MSGS bot !! id (call_from_user call) = None \/
  LAST_MSGS bot !! id (call_from_user call) = Some [] ->
  snd (callbacks available env call bot) = bot /\
  exists ack body mode,
    fst (callbacks available env call bot) =
      Returns [CallAnswer ack; MessageAnswer body mode None].
Proof.
  intros H. unfold callbacks. cbv zeta. unfold str in H |- *.
  destruct (str_eqb (call_data call) (u "help")) eqn:Ed.
  - destruct H as [H|H].
    + unfold str_eqb in Ed. apply bool_decide_eq_true in Ed. contradiction.
    + destruct H as [-> | ->]; (split; [reflexivity | eauto]).
  - split; [reflexivity | eauto].
Qed.

Lemma callbacks_without_last_message_stay_local_witness :
  snd (callbacks true silent_remote help_call blank_bot) = blank_bot /\
  exists ack body mode,
    fst (callbacks true silent_remote help_call blank_bot) =
      Returns [CallAnswer ack; MessageAnswer body mode None].
Proof.
  apply (callbacks_without_last_message_stay_local interpreter_tables true
           silent_remote help_call blank_bot).
  right; right. apply lookup_insert_eq.
Defined.

(** X21: after a message was handled, the help callback of the same user sends
    a prompt about exactly that message. *)
Theorem help_explains_the_recorded_message
    (U : UnicodeData) (KEYWORDS : list str) (env env2 : Remote)
    (message : Message) (call : CallbackQuery) (bot : Bot) (txt : str) :
  message_text message = Some txt -> txt <> [] ->
  call_data call = u "help" ->
  id (call_from_user call) = id (from_user message) ->
  let bot1 := snd (analyze KEYWORDS true env message bot) in
  let lang2 := detect_lang (default [] (message_text (call_message call))
                            ++ default [] (language_code (call_from_user call))) in
  ~ (clock env2 < _ai_cooldown_until (ai (world bot1)))%Q ->
  sent (world (snd (callbacks true env2 call bot1))) =
    sent (world bot1) ++ [full_prompt txt lang2].
Proof.
  intros Htxt Hne Hdata Hid bot1 lang2 Hgate.
  assert (Hmem : LAST_MSGS bot1 !! id (call_from_user call) = Some txt).
  { unfold bot1. rewrite analyze_memory, Hid, Htxt. apply lookup_insert_eq. }
  unfold callbacks. cbv zeta. unfold str in Hmem |- *. rewrite Hdata, Hmem.
  replace (str_eqb (u "help") (u "help")) with true by (vm_compute; reflexivity).
  destruct txt as [|c txt]; [congruence|]. fold lang2.
  pose proof (ai_explain_safety_attempt (request env2 (c :: txt) lang2) (world bot1) Hgate) as E.
  destruct (ai_explain_safety true (request env2 (c :: txt) lang2) (world bot1)) as [res w'].
  cbv zeta in E.
  destruct (_call (request env2 (c :: txt) lang2)) as [out|msg].
  - injection E as -> ->. reflexivity.
  - injection E as -> ->. destruct (is_quota_error msg); reflexivity.
Qed.

Lemma help_explains_the_recorded_message_witness :
  sent (world (snd (callbacks true silent_remote help_call
                      (snd (analyze fallback_keywords true silent_remote scam_message
                              empty_bot))))) =
    sent (world (snd (analyze fallback_keywords true silent_remote scam_message empty_bot)))
    ++ [full_prompt (u "Срочно переведи деньги, ты выиграл приз")
          (detect_lang (default [] (message_text (call_message help_call))
                        ++ default [] (language_code (call_from_user help_call))))].
Proof.
  apply (help_explains_the_recorded_message interpreter_tables fallback_keywords
           silent_remote silent_remote scam_message help_call empty_bot
           (u "Срочно переведи деньги, ты выиграл приз")).
  - reflexivity.
  - discriminate.
  - reflexivity.
  - reflexivity.
  - vm_compute. discriminate.
Defined.

(** * The token, the choice of the model and the keyword file *)

Section Stripping.
Variable p : char -> bool.

Lemma lstrip_of_pad pad s : Forall (fun c => p c = true) pad -> lstrip_of p (pad ++ s) = lstrip_of p s.
Proof. induction 1 as [|c pad Hc _ IH]; simpl; [reflexivity|]. rewrite Hc. exact IH. Qed.

Lemma rstrip_of_pad pad : Forall (fun c => p c = true) pad -> rstrip_of p pad = [].
Proof. induction 1 as [|c pad Hc _ IH]; simpl; [reflexivity|]. rewrite IH, Hc. reflexivity. Qed.

Lemma rstrip_of_app s pad :
  Forall (fun c => p c = true) pad -> rstrip_of p (s ++ pad) = rstrip_of p s.
Proof.
  intros Hpad. induction s as [|c s IH]; simpl; [apply rstrip_of_pad, Hpad|].
  rewrite IH. reflexivity.
Qed.

Lemma rstrip_of_last s : forall a c, rstrip_of p s = a ++ [c] -> p c = false.
Proof.
  induction s as [|x s IH]; intros a c H; simpl in H.
  - destruct a; discriminate H.
  - destruct (rstrip_of p s) as [|y r].
    + destruct (p x) eqn:Hx; [destruct a; discriminate H|].
      destruct a as [|? [|? ?]]; try discriminate H. injection H as <-. exact Hx.
    + destruct a as [|x' a]; [discriminate H|]. injection H as _ H. eapply IH. exact H.
Qed.

Lemma rstrip_of_clean s c : p c = false -> rstrip_of p (s ++ [c]) = s ++ [c].
Proof.
  intros Hc. induction s as [|x s IH]; simpl; [rewrite Hc; reflexivity|].
  rewrite IH. destruct (s ++ [c]) eqn:E; [|reflexivity].
  apply app_eq_nil in E as [_ E]. discriminate E.
Qed.

Lemma lstrip_of_first s c rest : lstrip_of p s = c :: rest -> p c = false.
Proof.
  induction s as [|x s IH]; simpl; [discriminate|].
  destruct (p x) eqn:Hx; [exact IH|]. intros H. injection H as <- _. exact Hx.
Qed.

(** What [strip_of] returns has no character of the set at either end. *)
Lemma strip_of_ends s :
  (forall c rest, strip_of p s = c :: rest -> p c = false) /\
  (forall a c, strip_of p s = a ++ [c] -> p c = false).
Proof.
  unfold strip_of. split; [|apply rstrip_of_last].
  intros c rest H. destruct (lstrip_of p s) as [|x l] eqn:E; [discriminate H|].
  simpl in H. destruct (rstrip_of p l); [destruct (p x); [discriminate H|]|];
    injection H as <- _; eapply lstrip_of_first; exact E.
Qed.

(** A word with clean ends comes back from its padding. *)
Lemma strip_of_padded pad1 s pad2 :
  clean_ends p s ->
  Forall (fun c => p c = true) pad1 -> Forall (fun c => p c = true) pad2 ->
  strip_of p (pad1 ++ s ++ pad2) = s.
Proof.
  intros (Hne & Hfirst & Hlast) H1 H2. unfold strip_of.
  rewrite lstrip_of_pad by exact H1.
  destruct s as [|c s]; [congruence|].
  simpl lstrip_of. rewrite (Hfirst c s eq_refl).
  change (c :: s ++ pad2) with ((c :: s) ++ pad2). rewrite rstrip_of_app by exact H2.
  destruct (exists_last (l := c :: s)) as (a & z & E); [discriminate|].
  rewrite E. apply rstrip_of_clean. eapply Hlast. exact E.
Qed.

End Stripping.

Lemma lstrip_is_lstrip_of {U : UnicodeData} s : lstrip s = lstrip_of isspace s.
Proof. induction s as [|c s IH]; simpl; [reflexivity|]. rewrite IH. reflexivity. Qed.

Lemma rstrip_is_rstrip_of {U : UnicodeData} s : rstrip s = rstrip_of isspace s.
Proof. induction s as [|c s IH]; simpl; [reflexivity|]. rewrite IH. reflexivity. Qed.

Lemma strip_is_strip_of {U : UnicodeData} s : strip s = strip_of isspace s.
Proof. unfold strip, strip_of. rewrite lstrip_is_lstrip_of. apply rstrip_is_rstrip_of. Qed.

(** X22: the call raises exactly when nothing is left of the value after
    the three strips; otherwise it returns what is left, which is never empty
    and has no apostrophe at either end. *)
Theorem get_bot_token_is_never_empty (U : UnicodeData) (BOT_TOKEN : option str) :
  ((exists msg, get_bot_token BOT_TOKEN = Raises msg) <->
     unquote (default [] BOT_TOKEN) = []) /\
  match get_bot_token BOT_TOKEN with
  | Returns token =>
    token = unquote (default [] BOT_TOKEN) /\
    token <> [] /\
    (forall rest, token <> APOSTROPHE :: rest) /\
    (forall start, token <> start ++ [APOSTROPHE])
  | Raises msg => msg = u "BOT_TOKEN is not set. Please add it to .env"
  end.
Proof.
  unfold get_bot_token.
  pose proof (strip_of_ends (N.eqb APOSTROPHE)
                (strip_of (N.eqb DOUBLE_QUOTE) (strip (default [] BOT_TOKEN)))) as [Hf Hl].
  fold (unquote (default [] BOT_TOKEN)) in Hf, Hl.
  destruct (unquote (default [] BOT_TOKEN)) as [|c token].
  - split; [|reflexivity]. split; [reflexivity|]. intros _. eexists. reflexivity.
  - split.
    + split; [intros [msg H]; discriminate H | intros H; discriminate H].
    + split; [reflexivity|]. split; [discriminate|]. split.
      * intros rest E. specialize (Hf _ _ E). rewrite N.eqb_refl in Hf. discriminate Hf.
      * intros start E. specialize (Hl _ _ E). rewrite N.eqb_refl in Hl. discriminate Hl.
Qed.

Section Tokens.
Context {U : UnicodeData}.

Lemma plain_token_clean p token :
  plain_token token ->
  (forall c, p c = true -> isspace c = true \/ c = DOUBLE_QUOTE \/ c = APOSTROPHE) ->
  clean_ends p token.
Proof.
  intros [Hne H] Hp. split; [exact Hne|].
  split; intros; apply not_true_is_false; intros Hc.
  - destruct (H c) as (H1 & H2 & H3); [left; eauto|].
    destruct (Hp c Hc) as [?|[?|?]]; congruence.
  - destruct (H c) as (H1 & H2 & H3); [right; eauto|].
    destruct (Hp c Hc) as [?|[?|?]]; congruence.
Qed.

Lemma unquote_plain token : plain_token token -> unquote token = token.
Proof.
  intros H. unfold unquote. rewrite strip_is_strip_of.
  rewrite <- (app_nil_r token) at 1. rewrite <- (app_nil_l (token ++ [])) at 1.
  rewrite strip_of_padded; [|apply plain_token_clean; [exact H | tauto] |constructor|constructor].
  rewrite <- (app_nil_r token) at 1. rewrite <- (app_nil_l (token ++ [])) at 1.
  rewrite strip_of_padded;
    [|apply plain_token_clean; [exact H | intros c Hc; apply N.eqb_eq in Hc; auto]
     |constructor|constructor].
  rewrite <- (app_nil_r token) at 1. rewrite <- (app_nil_l (token ++ [])) at 1.
  apply strip_of_padded;
    [apply plain_token_clean; [exact H | intros c Hc; apply N.eqb_eq in Hc; auto]
    |constructor|constructor].
Qed.

End Tokens.

(** X23: a plain token is returned as it is from any padding of white space,
    also when it stands in double quotes or in apostrophes. *)
Theorem get_bot_token_unwraps (U : UnicodeData) (token pad1 pad2 : str) :
  plain_token token ->
  Forall (fun c => isspace c = true) pad1 -> Forall (fun c => isspace c = true) pad2 ->
  isspace DOUBLE_QUOTE = false -> isspace APOSTROPHE = false ->
  get_bot_token (Some (pad1 ++ token ++ pad2)) = Returns token /\
  get_bot_token (Some (pad1 ++ ([DOUBLE_QUOTE] ++ token ++ [DOUBLE_QUOTE]) ++ pad2)) =
    Returns token /\
  get_bot_token (Some (pad1 ++ ([APOSTROPHE] ++ token ++ [APOSTROPHE]) ++ pad2)) =
    Returns token.
Proof.
  intros Hplain H1 H2 Hdq Hap.
  assert (Hret : forall v, unquote v = token -> get_bot_token (Some v) = Returns token).
  { intros v E. unfold get_bot_token. change (default [] (Some v)) with v.
    cbv zeta. rewrite E.
    destruct Hplain as [Hne _]. destruct token; [congruence | reflexivity]. }
  assert (Hwrap : forall q, isspace q = false ->
            clean_ends isspace ([q] ++ token ++ [q])).
  { intros q Hq. split; [discriminate|]. split.
    - intros c rest E. injection E as <- _. exact Hq.
    - intros a c E. rewrite app_assoc in E. apply app_inj_tail in E as [_ <-]. exact Hq. }
  split; [|split]; apply Hret.
  - unfold unquote at 1. rewrite strip_is_strip_of, strip_of_padded;
      [|apply plain_token_clean; [exact Hplain | tauto] | exact H1 | exact H2].
    fold (unquote token). pose proof (unquote_plain token Hplain) as E.
    unfold unquote in E |- *. rewrite strip_is_strip_of in E.
    rewrite <- (app_nil_r token) in E at 1. rewrite <- (app_nil_l (token ++ [])) in E at 1.
    rewrite strip_of_padded in E;
      [exact E | apply plain_token_clean; [exact Hplain | tauto] | constructor | constructor].
  - unfold unquote. rewrite strip_is_strip_of, strip_of_padded by auto.
    rewrite (strip_of_padded (N.eqb DOUBLE_QUOTE) [DOUBLE_QUOTE] token [DOUBLE_QUOTE]);
      [|apply plain_token_clean; [exact Hplain | intros c Hc; apply N.eqb_eq in Hc; auto]
       |repeat constructor|repeat constructor].
    rewrite <- (app_nil_r token) at 1. rewrite <- (app_nil_l (token ++ [])) at 1.
    apply strip_of_padded;
      [apply plain_token_clean; [exact Hplain | intros c Hc; apply N.eqb_eq in Hc; auto]
      |constructor|constructor].
  - unfold unquote. rewrite strip_is_strip_of, strip_of_padded by auto.
    rewrite <- (app_nil_r ([APOSTROPHE] ++ token ++ [APOSTROPHE])) at 1.
    rewrite <- (app_nil_l (([APOSTROPHE] ++ token ++ [APOSTROPHE]) ++ [])) at 1.
    rewrite strip_of_padded; [| |constructor|constructor].
    + apply (strip_of_padded (N.eqb APOSTROPHE) [APOSTROPHE] token [APOSTROPHE]);
        [apply plain_token_clean; [exact Hplain | intros c Hc; apply N.eqb_eq in Hc; auto]
        |repeat constructor|repeat constructor].
    + split; [discriminate|]. split.
      * intros c rest E. injection E as <- _. reflexivity.
      * intros a c E. rewrite app_assoc in E. apply app_inj_tail in E as [_ <-]. reflexivity.
Qed.

Lemma get_bot_token_unwraps_witness :
  get_bot_token (Some (u "  " ++ u "123:ABC" ++ u " ")) = Returns (u "123:ABC") /\
  get_bot_token (Some (u "  " ++ ([DOUBLE_QUOTE] ++ u "123:ABC" ++ [DOUBLE_QUOTE]) ++ u " ")) =
    Returns (u "123:ABC") /\
  get_bot_token (Some (u "  " ++ ([APOSTROPHE] ++ u "123:ABC" ++ [APOSTROPHE]) ++ u " ")) =
    Returns (u "123:ABC").
Proof.
  apply (get_bot_token_unwraps interpreter_tables (u "123:ABC") (u "  ") (u " ")).
  - split; [discriminate|]. intros c [[rest E]|[start E]].
    + injection E as <- _. vm_compute. repeat split; discriminate.
    + change (u "123:ABC") with (u "123:AB" ++ [ch "C"]) in E.
      apply app_inj_tail in E as [_ <-]. vm_compute. repeat split; discriminate.
  - repeat constructor.
  - repeat constructor.
  - reflexivity.
  - reflexivity.
Defined.

Lemma is_prefix_refl s : is_prefix s s = true.
Proof. induction s as [|c s IH]; simpl; [reflexivity|]. rewrite N.eqb_refl. exact IH. Qed.

Lemma is_prefix_shorter a b s : is_prefix (a ++ b) s = true -> is_prefix a s = true.
Proof.
  rewrite !is_prefix_app. intros [rest ->]. exists (b ++ rest). symmetry. apply app_assoc.
Qed.

Lemma endswith_longer x front suffix :
  endswith x (front ++ suffix) = true -> endswith x suffix = true.
Proof. unfold endswith. rewrite rev_app_distr. apply is_prefix_shorter. Qed.

Lemma fits_endswith candidate x : fits candidate x = endswith x candidate.
Proof.
  unfold fits, str_eqb. destruct (bool_decide_reflect (x = candidate)) as [->|_].
  - unfold endswith. rewrite is_prefix_refl. reflexivity.
  - apply orb_false_r.
Qed.

Lemma endswith_nonempty x suffix : endswith x suffix = true -> suffix <> [] -> x <> [].
Proof.
  unfold endswith. intros H Hs ->. simpl in H.
  destruct (rev suffix) eqn:E; [|discriminate H].
  apply (f_equal (@rev char)) in E. rewrite rev_involutive in E. contradiction.
Qed.

Lemma find_ext_fits candidate available :
  List.find (fits candidate) available = List.find (fun x => endswith x candidate) available.
Proof.
  induction available as [|x l IH]; simpl; [reflexivity|].
  rewrite fits_endswith, IH. reflexivity.
Qed.

Section SelectionFacts.
Context {U : UnicodeData}.

Lemma first_fit_wanted want available :
  first_fit (_normalize_wanted_name want) available =
    (if str_eqb (strip want) [] then None
     else List.find (fun x => endswith x (strip want)) available).
Proof.
  unfold _normalize_wanted_name. destruct (strip want) as [|c name] eqn:E; [reflexivity|].
  change (str_eqb (c :: name) []) with false. cbv iota.
  cbn [first_fit]. rewrite !find_ext_fits.
  destruct (List.find (fun x => endswith x (c :: name)) available) as [x|] eqn:F; [reflexivity|].
  destruct (List.find (fun x => endswith x (u "models/" ++ c :: name)) available) as [y|] eqn:G;
    [|reflexivity].
  apply find_some in G as [Hin Hy]. apply endswith_longer in Hy.
  rewrite (find_none _ _ F y Hin) in Hy. discriminate Hy.
Qed.

Lemma first_fit_sound want available x :
  first_fit (_normalize_wanted_name want) available = Some x -> In x available /\ x <> [].
Proof.
  rewrite first_fit_wanted. destruct (str_eqb (strip want) []) eqn:E; [discriminate|].
  intros H. apply find_some in H as [Hin Hx]. split; [exact Hin|].
  eapply endswith_nonempty; [exact Hx|].
  unfold str_eqb in E. apply bool_decide_eq_false in E. exact E.
Qed.

Lemma select_wanted_sound wanted available : forall chosen x,
  select_wanted wanted available chosen = Some x ->
  chosen = Some x \/ (In x available /\ x <> []).
Proof.
  induction wanted as [|want rest IH]; intros chosen x H; simpl in H; [left; exact H|].
  destruct (first_fit (_normalize_wanted_name want) available) as [y|] eqn:F.
  - apply first_fit_sound in F as [Hin Hne].
    destruct y as [|c y]; [congruence|]. cbn [truthy] in H. injection H as <-. right; auto.
  - destruct (truthy chosen); [left; exact H | apply IH, H].
Qed.

Lemma select_wanted_none_available wanted : forall chosen,
  select_wanted wanted [] chosen = chosen.
Proof.
  induction wanted as [|want rest IH]; intros chosen; simpl; [reflexivity|].
  rewrite first_fit_wanted. simpl. destruct (str_eqb (strip want) []);
    destruct (truthy chosen); auto.
Qed.

Lemma available_models_In listed x :
  In x (available_models listed) <->
  exists m, In m listed /\ default [] (name m) = x /\
    In (u "generateContent") (default [] (supported_generation_methods m)).
Proof.
  induction listed as [|m listed IH]; simpl.
  - split; [tauto | intros (m & [] & _)].
  - destruct (existsb (str_eqb (u "generateContent"))
                (default [] (supported_generation_methods m))) eqn:E.
    + apply existsb_exists in E as (g & Hg & Eg).
      unfold str_eqb in Eg. apply bool_decide_eq_true in Eg. subst g.
      simpl. rewrite IH. split.
      * intros [<-|(m' & Hin & Hn & Hm)]; [exists m; auto | exists m'; auto].
      * intros (m' & [<-|Hin] & Hn & Hm); [left; exact Hn | right; exists m'; auto].
    + rewrite IH. split.
      * intros (m' & Hin & Hn & Hm). exists m'. auto.
      * intros (m' & [<-|Hin] & Hn & Hm); [|exists m'; auto].
        assert (existsb (str_eqb (u "generateContent"))
                  (default [] (supported_generation_methods m)) = true).
        { apply existsb_exists. exists (u "generateContent"). split; [exact Hm|].
          unfold str_eqb. apply bool_decide_eq_true. reflexivity. }
        congruence.
Qed.

End SelectionFacts.

Lemma choose_model_sound {U : UnicodeData} wanted available x :
  choose_model wanted available = Some x -> In x available /\ x <> [].
Proof.
  intros H. unfold choose_model in H.
  destruct (select_wanted wanted available None) as [y|] eqn:S.
  - apply select_wanted_sound in S as [S|[Hin Hne]]; [discriminate S|].
    destruct y as [|c y]; [congruence|].
    destruct available; cbn [truthy] in H; injection H as <-; auto.
  - destruct available as [|first rest]; cbn [truthy] in H; [discriminate H|].
    destruct first as [|c first]; [discriminate H|].
    injection H as <-. split; [left; reflexivity | discriminate].
Qed.

(** X24: the chosen model is one of the available ones and has a name; none is
    chosen when none is available, and one is chosen when the first available
    has a name. *)
Theorem choose_model_picks_an_available_model
    (U : UnicodeData) (wanted available : list str) :
  (forall x, choose_model wanted available = Some x -> In x available /\ x <> []) /\
  (available = [] -> choose_model wanted available = None) /\
  (forall first rest, available = first :: rest -> first <> [] ->
     choose_model wanted available <> None).
Proof.
  split; [|split].
  - intros x H. apply (choose_model_sound wanted available x H).
  - intros ->. unfold choose_model. rewrite select_wanted_none_available. reflexivity.
  - intros first rest -> Hne. unfold choose_model.
    destruct (truthy (select_wanted wanted (first :: rest) None)) eqn:T.
    + rewrite T. destruct (select_wanted wanted (first :: rest) None); [discriminate|].
      discriminate T.
    + destruct first as [|c first]; [congruence|]. discriminate.
Qed.

(** X25: a wanted name is matched as a suffix of the available names, the
    first match in the listing wins, and the first wanted name with a match
    decides. *)
Theorem wanted_name_is_matched_as_suffix
    (U : UnicodeData) (want : str) (others available : list str) :
  first_fit (_normalize_wanted_name want) available =
    (if str_eqb (strip want) [] then None
     else List.find (fun x => endswith x (strip want)) available) /\
  (forall x, first_fit (_normalize_wanted_name want) available = Some x ->
     choose_model (want :: others) available = Some x).
Proof.
  split; [apply first_fit_wanted|].
  intros x F. pose proof (first_fit_sound want available x F) as [Hin Hne].
  unfold choose_model. cbn [select_wanted]. rewrite F.
  destruct x as [|c x]; [congruence|]. cbn [truthy].
  destruct available; reflexivity.
Qed.

(** X28: a model is selected only when the switch is not off, the library is
    there, a key is set, and the model was listed with generateContent. *)
Theorem gemini_needs_switch_library_key_and_model
    (U : UnicodeData) (USE_GEMINI : option str) (sdk : bool)
    (GEMINI_API_KEY GOOGLE_API_KEY GEMINI_MODEL : option str)
    (listed : list ModelInfo) (chosen : str) :
  gemini_selected USE_GEMINI sdk GEMINI_API_KEY GOOGLE_API_KEY GEMINI_MODEL listed
    = Some chosen ->
  ~ In (strip (default (u "1") USE_GEMINI)) [u "0"; u "false"; u "False"] /\
  sdk = true /\
  gemini_api_key GEMINI_API_KEY GOOGLE_API_KEY <> [] /\
  chosen <> [] /\
  exists m, In m listed /\ name m = Some chosen /\
    In (u "generateContent") (default [] (supported_generation_methods m)).
Proof.
  unfold gemini_selected. intros H.
  destruct (use_gemini USE_GEMINI) eqn:Eu; [|discriminate H].
  destruct sdk; [|discriminate H].
  destruct (str_eqb (gemini_api_key GEMINI_API_KEY GOOGLE_API_KEY) []) eqn:Ek;
    [discriminate H|]. cbn [andb negb] in H.
  apply (choose_model_sound _ _ chosen) in H as [Hin Hne].
  split; [|split; [reflexivity|split; [|split; [exact Hne|]]]].
  - unfold use_gemini in Eu. apply negb_true_iff in Eu. intros Hin0.
    assert (existsb (str_eqb (strip (default (u "1") USE_GEMINI)))
              [u "0"; u "false"; u "False"] = true); [|congruence].
    apply existsb_exists. eexists. split; [exact Hin0|].
    unfold str_eqb. apply bool_decide_eq_true. reflexivity.
  - unfold str_eqb in Ek. apply bool_decide_eq_false in Ek. exact Ek.
  - apply available_models_In in Hin as (m & Hm & Hn & Hg).
    exists m. split; [exact Hm|]. split; [|exact Hg].
    destruct (name m) as [n|]; simpl in Hn; [congruence|]. congruence.
Qed.

Lemma gemini_needs_switch_library_key_and_model_witness :
  ~ In (strip (default (u "1") None)) [u "0"; u "false"; u "False"] /\
  true = true /\
  gemini_api_key (Some (u "secret")) None <> [] /\
  u "models/gemini-1.5-flash" <> [] /\
  exists m, In m sample_listing /\ name m = Some (u "models/gemini-1.5-flash") /\
    In (u "generateContent") (default [] (supported_generation_methods m)).
Proof.
  apply (gemini_needs_switch_library_key_and_model interpreter_tables
           None true (Some (u "secret")) None None sample_listing
           (u "models/gemini-1.5-flash")).
  vm_compute. reflexivity.
Defined.

(** * More on the keyword file *)

Lemma dict_get_missing members key default :
  (forall k v, In (k, v) members -> k <> key) -> dict_get members key default = default.
Proof.
  induction members as [|[k v] rest IH]; intros H; simpl; [reflexivity|].
  destruct (existsb (fun m => str_eqb (fst m) key) rest) eqn:E.
  - apply IH. intros k' v' Hin. apply (H k' v'). right; exact Hin.
  - unfold str_eqb. rewrite bool_decide_eq_false_2; [reflexivity|].
    apply (H k v). left; reflexivity.
Qed.

Lemma lowered_strings_In {U : UnicodeData} items e :
  In e (lowered_strings items) <-> exists k, In (JString k) items /\ e = lower k.
Proof.
  split; [apply lowered_strings_lower|].
  intros (k & Hin & ->). induction items as [|j items IH]; [destruct Hin|].
  destruct Hin as [->|Hin]; [left; reflexivity|].
  destruct j; simpl; auto.
Qed.

(** X26: a keyword file that is an object without the keywords entry gives an
    empty keyword list, not the built-in one. *)
Theorem load_keywords_without_keywords_entry
    (U : UnicodeData) (members : list (str * json)) :
  (forall k v, In (k, v) members -> k <> u "keywords") ->
  load_keywords (Returns (JObject members)) = [].
Proof.
  intros H. unfold load_keywords. cbn [bind json_get].
  rewrite (dict_get_missing members (u "keywords") (JArray []) H). reflexivity.
Qed.

Lemma load_keywords_without_keywords_entry_witness :
  load_keywords (Returns (JObject [(u "words", JArray [JString (u "prize")])])) = [].
Proof.
  apply (load_keywords_without_keywords_entry interpreter_tables).
  intros k v [E|[]]. injection E as <- _. discriminate.
Defined.

(** X27: when the keywords entry is an array, the list consists of its strings
    in lower case, sorted and without repetitions; other entries are dropped.
    *)
Theorem load_keywords_from_array
    (U : UnicodeData) (L : UnicodeLaws U) (members : list (str * json)) (items : list json) :
  dict_get members (u "keywords") (JArray []) = JArray items ->
  let keywords := load_keywords (Returns (JObject members)) in
  StronglySorted str_le keywords /\ NoDup keywords /\
  (forall kw, In kw keywords <-> exists k, In (JString k) items /\ kw = lower k) /\
  Forall (fun kw => lower kw = kw) keywords.
Proof.
  intros H. cbv zeta.
  assert (E : load_keywords (Returns (JObject members)) = sorted_set (lowered_strings items)).
  { unfold load_keywords. cbn [bind json_get]. rewrite H. reflexivity. }
  rewrite E. split; [apply sorted_set_sorted|]. split; [apply sorted_set_NoDup|]. split.
  - intros kw. rewrite sorted_set_elem. apply lowered_strings_In.
  - apply List.Forall_forall. intros kw Hkw.
    apply (proj1 (sorted_set_elem _ _)), lowered_strings_In in Hkw as (k & _ & ->).
    apply lower_idempotent.
Qed.

Lemma load_keywords_from_array_witness :
  let keywords :=
    load_keywords (Returns (JObject [(u "keywords",
       JArray [JString (u "Win"); JNull; JString (u "банк"); JString (u "win")])])) in
  StronglySorted str_le keywords /\ NoDup keywords /\
  (forall kw, In kw keywords <->
     exists k, In (JString k) [JString (u "Win"); JNull; JString (u "банк"); JString (u "win")]
               /\ kw = lower k) /\
  Forall (fun kw => lower kw = kw) keywords.
Proof.
  apply (load_keywords_from_array interpreter_tables interpreter_tables_laws
           [(u "keywords",
             JArray [JString (u "Win"); JNull; JString (u "банк"); JString (u "win")])]).
  reflexivity.
Defined.

(** * The retry delay and the pattern of the source *)

Section RetryFacts.
Context {U : UnicodeData}.

Lemma rmatch_star a k prev s : rmatch (RStar a) prev s k = star_loop a k (length s) prev s.
Proof. reflexivity. Qed.

Lemma rmatch_cat a b prev s k :
  rmatch (RCat a b) prev s k = rmatch a prev s (fun prev' s' => rmatch b prev' s' k).
Proof. reflexivity. Qed.

Lemma star_loop_true a fuel prev s : star_loop a (fun _ _ => true) fuel prev s = true.
Proof. destruct fuel; simpl; [reflexivity | apply orb_true_r]. Qed.

Lemma star_loop_class p k fuel : forall prev s,
  (length s <= fuel)%nat ->
  (star_loop (RClass p) k fuel prev s = true <->
   exists a b, s = a ++ b /\ Forall (fun c => p c = true) a /\ k (last_or prev a) b = true).
Proof.
  induction fuel as [|fuel IH]; intros prev s Hlen.
  - destruct s; [|simpl in Hlen; lia]. simpl. split.
    + intros H. exists [], []. auto.
    + intros (a & b & E & _ & H). symmetry in E. apply app_eq_nil in E as [-> ->]. exact H.
  - cbn [star_loop rmatch]. rewrite orb_true_iff. split.
    + intros [H|H]; [|exists [], s; auto].
      destruct s as [|x s]; [discriminate H|].
      apply andb_prop in H as [Hx H]. apply andb_prop in H as [_ H].
      apply IH in H as (a & b & -> & Ha & Hk); [|simpl in Hlen; lia].
      exists (x :: a), b. rewrite last_or_cons. auto.
    + intros ([|x a] & b & -> & Ha & Hk); [right; exact Hk|].
      left. inversion Ha as [|? ? Hx Ha']; subst. rewrite <- app_comm_cons.
      rewrite Hx. cbn [andb]. apply andb_true_intro. split.
      * apply Nat.ltb_lt. simpl. lia.
      * apply IH; [simpl in Hlen; rewrite length_app in *; lia|].
        exists a, b. rewrite last_or_cons in Hk. auto.
Qed.

Lemma rmatch_class p prev x s k :
  rmatch (RClass p) prev (x :: s) k = p x && k (Some x) s.
Proof. reflexivity. Qed.

Lemma rmatch_one_or_more p prev s :
  rmatch (RPlus (RClass p)) prev s (fun _ _ => true) =
  match s with
  | x :: _ => p x
  | [] => false
  end.
Proof.
  unfold RPlus. rewrite rmatch_cat. destruct s as [|x s]; [reflexivity|].
  rewrite rmatch_class, rmatch_star, star_loop_true. apply andb_true_r.
Qed.

Lemma has_digit_after prev s :
  rmatch (RCat (RStar (RClass (fun c => negb (is_digit c)))) (RPlus (RClass is_digit)))
    prev s (fun _ _ => true) = true <->
  Exists (fun c => is_digit c = true) s.
Proof.
  rewrite rmatch_cat, rmatch_star, star_loop_class by lia. split.
  - intros (a & b & -> & _ & H). rewrite rmatch_one_or_more in H.
    destruct b as [|x b]; [discriminate H|].
    apply Exists_app. right. left. exact H.
  - intros H. induction H as [x s Hx|x s _ IH].
    + exists [], (x :: s). split; [reflexivity|]. split; [constructor|].
      rewrite rmatch_one_or_more. exact Hx.
    + destruct (is_digit x) eqn:Hx.
      * exists [], (x :: s). split; [reflexivity|]. split; [constructor|].
        rewrite rmatch_one_or_more. exact Hx.
      * destruct IH as (a & b & -> & Ha & Hk). exists (x :: a), b.
        split; [reflexivity|]. split; [constructor; [rewrite Hx; reflexivity | exact Ha]|].
        rewrite rmatch_one_or_more in Hk |- *. exact Hk.
Qed.

Lemma rmatch_classes ps k : forall prev s,
  (forall p1 p2 r, k p1 r = k p2 r) ->
  (rmatch (RClasses ps) prev s k = true <->
   exists rest, after_classes ps s = Some rest /\ k None rest = true).
Proof.
  induction ps as [|p ps IH]; intros prev s Hk.
  - simpl. rewrite (Hk prev None). split; [eauto | intros (rest & E & H); congruence].
  - cbn [RClasses rmatch after_classes]. destruct s as [|x s].
    + split; [discriminate | intros (rest & E & _); discriminate E].
    + destruct (p x); [apply IH, Hk|].
      split; [discriminate | intros (rest & E & _); discriminate E].
Qed.

Lemma after_classes_drop ps : forall s rest,
  after_classes ps s = Some rest -> rest = drop (length ps) s.
Proof.
  induction ps as [|p ps IH]; intros s rest H; simpl in H.
  - injection H as <-. reflexivity.
  - destruct s as [|x s]; [discriminate H|]. destruct (p x); [|discriminate H].
    simpl. apply IH, H.
Qed.

Lemma leading_digits_found s :
  leading_digits (drop_non_digits s) <> [] <-> Exists (fun c => is_digit c = true) s.
Proof.
  induction s as [|x s IH]; simpl.
  - split; [congruence | intros H; inversion H].
  - destruct (is_digit x) eqn:Hx.
    + split; [intros _; left; exact Hx|]. intros _. simpl.
      unfold is_digit in Hx. destruct (todecimal x); [discriminate | discriminate Hx].
    + rewrite IH. split; [intros H; right; exact H|].
      intros H. inversion H as [? ? Hd|]; subst; [congruence | assumption].
Qed.

Lemma Exists_drop (P : char -> Prop) n (s : str) : Exists P (drop n s) -> Exists P s.
Proof.
  intros H. rewrite <- (take_drop n s). apply Exists_app. right. exact H.
Qed.

Lemma retry_delay_digits_found msg :
  retry_delay_digits msg <> None <->
  exists a b rest, msg = a ++ b /\ after_classes retry_delay_words b = Some rest /\
    Exists (fun c => is_digit c = true) rest.
Proof.
  induction msg as [|x msg IH].
  - simpl. split; [congruence|].
    intros (a & b & rest & E & H & _). symmetry in E. apply app_eq_nil in E as [_ ->].
    discriminate H.
  - cbn [retry_delay_digits].
    destruct (after_classes retry_delay_words (x :: msg)) as [rest|] eqn:E.
    + split.
      * intros H. exists [], (x :: msg), rest. split; [reflexivity|]. split; [exact E|].
        apply leading_digits_found.
        destruct (leading_digits (drop_non_digits rest)); congruence.
      * intros (a & b & rest' & Hm & Hb & Hd).
        assert (Hrest : Exists (fun c => is_digit c = true) rest).
        { apply after_classes_drop in E, Hb. subst rest rest'. rewrite Hm.
          apply (Exists_drop _ (length a)).
          rewrite drop_drop, Nat.add_comm, drop_app_add' by reflexivity. exact Hd. }
        apply leading_digits_found in Hrest.
        destruct (leading_digits (drop_non_digits rest)); congruence.
    + rewrite IH. split.
      * intros (a & b & rest & -> & Hb & Hd). exists (x :: a), b, rest. auto.
      * intros ([|y a] & b & rest & Hm & Hb & Hd).
        -- simpl in Hm. subst b. congruence.
        -- injection Hm as -> ->. exists a, b, rest. auto.
Qed.

End RetryFacts.

(** X14: a retry delay is found in an error text exactly when the pattern of
    the source matches it. *)
Theorem retry_delay_found_iff_pattern_matches (U : UnicodeData) (msg : str) :
  retry_delay_digits msg <> None <-> re_search retry_delay_regex msg = true.
Proof.
  rewrite retry_delay_digits_found. unfold re_search. rewrite search_from_iff.
  assert (Hk : forall p1 p2 r,
            rmatch (RCat (RStar (RClass (fun c => negb (is_digit c))))
                      (RPlus (RClass is_digit))) p1 r (fun _ _ => true) =
            rmatch (RCat (RStar (RClass (fun c => negb (is_digit c))))
                      (RPlus (RClass is_digit))) p2 r (fun _ _ => true)).
  { intros p1 p2 r. apply eq_true_iff_eq. rewrite !has_digit_after. reflexivity. }
  split.
  - intros (a & b & rest & -> & Hb & Hd). exists a, b. split; [reflexivity|].
    unfold retry_delay_regex. rewrite rmatch_cat.
    apply (rmatch_classes retry_delay_words); [exact Hk|].
    exists rest. split; [exact Hb|]. apply has_digit_after, Hd.
  - intros (a & b & -> & H). unfold retry_delay_regex in H. rewrite rmatch_cat in H.
    apply (rmatch_classes retry_delay_words) in H as (rest & Hb & Hd); [|exact Hk].
    exists a, b, rest. split; [reflexivity|]. split; [exact Hb|].
    apply has_digit_after in Hd. exact Hd.
Qed.
